(** * Mailroom: the contact-name commit hook and the pre-commit pipeline

    A shallow embedding of [handlers/contact_name_changed.go] (the event
    handler [applyContactNameChanged], the commit hook
    [CommitContactNameChanges.Apply], the row type [nameUpdate] and the
    statement [updateContactNameSQL]) together with the part of package
    [models] those two functions rely on.

    Go maps are [gmap]s, Go slices are lists, pointers to sessions are
    addresses into a store of sessions, interface values carry their dynamic
    type, and a run-time panic is an explicit outcome.  The order in which
    [range] visits a map is not fixed by Go: every loop over a map is
    written over a list of entries, and the statements about it quantify
    over all permutations of the map's entries. *)

From stdpp Require Import gmap strings list fin_maps.
From Stdlib Require Import ZArith.

(** ** Go run-time notions *)

Module golang.

(** The run-time panics the embedded code can raise. *)
Inductive panic :=
| IndexOutOfRange
| InterfaceConversion
| NilDereference.

(** A Go call either returns or panics. *)
Inductive outcome (A : Type) :=
| Returns (a : A)
| Panics (p : panic).
Arguments Returns {A} a.
Arguments Panics {A} p.

#[export] Instance outcome_ret : MRet outcome := λ A a, Returns a.
#[export] Instance outcome_bind : MBind outcome := λ A B k c,
  match c with
  | Returns a => k a
  | Panics p => Panics p
  end.

(** A value of Go's [error] interface: [None] is [nil]. *)
Abbreviation error := (option string).

(** Conversion [int64(x)] of an integer: two's complement wrap-around. *)
Definition int64 (z : Z) : Z := ((z + 2 ^ 63) `mod` 2 ^ 64 - 2 ^ 63)%Z.

(** [len(e)], a Go [int]. *)
Definition len {A} (e : list A) : Z := Z.of_nat (length e).

(** [e[i]] on a slice: out of range is a run-time panic. *)
Definition index {A} (e : list A) (i : Z) : outcome A :=
  if decide (0 ≤ i)%Z then
    match e !! Z.to_nat i with
    | Some x => Returns x
    | None => Panics IndexOutOfRange
    end
  else Panics IndexOutOfRange.

(** Pointers to heap objects are addresses; [nil] is address zero and is
    never allocated. *)
Abbreviation ptr := N.
Definition nil : ptr := 0%N.

(** [*p] (or a field selector through [p]) in store [h]. *)
Definition deref {A} (h : gmap ptr A) (p : ptr) : outcome A :=
  if decide (p = nil) then Panics NilDereference
  else match h !! p with
       | Some a => Returns a
       | None => Panics NilDereference
       end.

End golang.

Export golang.

(** ** Package [events] of the flow engine: the one event kind used here *)

Module events.

Record ContactNameChangedEvent := { Name : string }.

End events.

(** A Go interface value ([flows.Event], [interface{}]) with its dynamic
    type.  A pointer to an event is [None] when it is a typed nil pointer;
    events are immutable, so the pointee stands for the pointer. *)
Inductive value :=
| nil_interface
| ContactNameChangedEvent_ptr (p : option events.ContactNameChangedEvent)
| other_dynamic (type_name : string).

(** The type assertion [e.( *events.ContactNameChangedEvent)]: it has no
    comma-ok form in the source, so a mismatch panics. *)
Definition assert_ContactNameChangedEvent (e : value)
  : outcome (option events.ContactNameChangedEvent) :=
  match e with
  | ContactNameChangedEvent_ptr p => Returns p
  | nil_interface | other_dynamic _ => Panics InterfaceConversion
  end.

(** The selector [event.Name] through an event pointer. *)
Definition select_Name (event : option events.ContactNameChangedEvent)
  : outcome string :=
  match event with
  | Some ev => Returns (events.Name ev)
  | None => Panics NilDereference
  end.

(** The dynamic type of [e] is [*events.ContactNameChangedEvent]. *)
Definition is_ContactNameChangedEvent (e : value) : bool :=
  match e with
  | ContactNameChangedEvent_ptr _ => true
  | _ => false
  end.

(** ** Structured logging (logrus): the records a call emits *)

Inductive logval :=
| LStr (s : string)
| LInt (z : Z).

Record LogEntry := {
  log_level : string;
  log_fields : list (string * logval);
  log_message : string
}.

(** ** Package [models]: sessions, the pre-commit queue and the batch
    committer *)

Module models.

(** Modelled from the spec: the type [EventCommitHook] is declared in
    package [models], which is not among the sources.  A hook is a key
    (identity, not data); the spec asks for a stable identifier, so a hook
    is named by the Go type of its singleton. *)
Abbreviation Hook := string.

(** Modelled from the spec: the struct [Session] is declared in package
    [models], which is not among the sources.  It holds the session's
    identity ([ID], [ContactID] and the contact UUID, which the handler
    reads) and the mapping from hook to the ordered sequence of data queued
    under it. *)
Record Session := {
  ID : Z;
  ContactID : Z;
  ContactUUID : string;
  preCommits : gmap Hook (list value)
}.

(** Modelled from the spec: [AddPreCommitEvent] (section 4.3) is a method
    of [Session] and is not among the sources.  It appends [data] to the
    sequence keyed by [hook], creating the sequence on first use, and
    leaves everything else in the session as it is. *)
Definition AddPreCommitEvent (hook : Hook) (data : value) (s : Session)
  : Session :=
  {| ID := ID s;
     ContactID := ContactID s;
     ContactUUID := ContactUUID s;
     preCommits :=
       <[hook := default [] (preCommits s !! hook) ++ [data]]> (preCommits s) |}.

(** Modelled from the spec: [PreCommitEvents] (section 4.3), the mapping
    the batch committer consumes. *)
Definition PreCommitEvents (s : Session) : gmap Hook (list value) :=
  preCommits s.

(** A session as it is created for a run: nothing queued. *)
Definition NewSession (id contact : Z) (uuid : string) : Session :=
  {| ID := id; ContactID := contact; ContactUUID := uuid; preCommits := ∅ |}.

(** The state a handler or a hook can reach through its arguments: the
    sessions it holds pointers to, the transaction [tx], the cache pool
    [rp], and the log records emitted so far.  The context [ctx] and the
    org assets [org] are only passed on, or not used at all, and are left
    out. *)
Record World (Tx Pool : Type) := {
  w_sessions : gmap ptr Session;
  w_tx : Tx;
  w_rp : Pool;
  w_log : list LogEntry
}.
Arguments w_sessions {Tx Pool} w.
Arguments w_tx {Tx Pool} w.
Arguments w_rp {Tx Pool} w.
Arguments w_log {Tx Pool} w.

(** A Go call that runs in a world: its outcome and the world it leaves.
    A panic keeps whatever the call did before it. *)
Definition M (Tx Pool A : Type) : Type :=
  World Tx Pool → outcome A * World Tx Pool.

Section Monad.
Context {Tx Pool : Type}.

Definition ret {A} (a : A) : M Tx Pool A := λ w, (Returns a, w).

Definition bind {A B} (c : M Tx Pool A) (k : A → M Tx Pool B) : M Tx Pool B :=
  λ w, match c w with
       | (Returns a, w') => k a w'
       | (Panics p, w') => (Panics p, w')
       end.

(** A step that only computes. *)
Definition pure {A} (c : outcome A) : M Tx Pool A := λ w, (c, w).

(** Reading the session behind a pointer. *)
Definition load (s : ptr) : M Tx Pool Session :=
  λ w, (deref (w_sessions w) s, w).

(** Writing the session behind a pointer. *)
Definition store (s : ptr) (v : Session) : M Tx Pool unit :=
  λ w, (Returns (),
        {| w_sessions := <[s := v]> (w_sessions w);
           w_tx := w_tx w; w_rp := w_rp w; w_log := w_log w |}).

(** [logrus.WithFields(fields).Debug(msg)]. *)
Definition Debug (fields : list (string * logval)) (msg : string)
  : M Tx Pool unit :=
  λ w, (Returns (),
        {| w_sessions := w_sessions w; w_tx := w_tx w; w_rp := w_rp w;
           w_log := w_log w ++
             [{| log_level := "debug"; log_fields := fields;
                 log_message := msg |}] |}).

(** The method call [s.AddPreCommitEvent(hook, data)] through the pointer
    [s]. *)
Definition Session_AddPreCommitEvent (s : ptr) (hook : Hook) (data : value)
  : M Tx Pool unit :=
  bind (load s) (λ sess, store s (AddPreCommitEvent hook data sess)).

End Monad.

#[global] Instance M_ret {Tx Pool} : MRet (M Tx Pool) := λ A, ret.
#[global] Instance M_bind {Tx Pool} : MBind (M Tx Pool) := λ A B k c, bind c k.

End models.

(** ** Package [handlers]: [contact_name_changed.go] *)

Module handlers.

(** [var commitContactNameChanges = &CommitContactNameChanges{}]: the
    package-level singleton, the hook's identity. *)
Definition commitContactNameChanges : models.Hook :=
  "*handlers.CommitContactNameChanges".

(** [type nameUpdate struct]: the row bound to [:id] and [:name]. *)
Record nameUpdate := {
  ContactID : Z;
  Name : string
}.

#[global] Instance nameUpdate_eq_dec : EqDecision nameUpdate.
Proof. solve_decision. Defined.

(** [const updateContactNameSQL], character for character. *)
Definition updateContactNameSQL : string := "
	UPDATE 
		contacts_contact c
	SET
		name = r.name,
		modified_on = NOW()
	FROM (
		VALUES(:id, :name)
	) AS
		r(id, name)
	WHERE
		c.id = r.id::int
".

(** One call [models.BulkSQL(ctx, label, tx, sql, vs)], as data.  The
    slice [vs] holds pointers to [nameUpdate] structs built in the loop
    and used nowhere else: it is a list of rows here. *)
Record BulkSQLCall := {
  bulk_label : string;
  bulk_sql : string;
  bulk_rows : list nameUpdate
}.

(** The body of the [range] loop of [Apply] for the entry [(s, e)]: the
    row appended to [updates].

    [event := e[len(e)-1].( *events.ContactNameChangedEvent)]
    [&nameUpdate{int64(s.ContactID), event.Name}] *)
Definition lastNameUpdate (h : gmap ptr models.Session) (s : ptr)
    (e : list value) : outcome nameUpdate :=
  x ← index e (len e - 1);
  event ← assert_ContactNameChangedEvent x;
  sess ← deref h s;
  name ← select_Name event;
  mret {| ContactID := int64 (models.ContactID sess); Name := name |}.

(** The loop [for s, e := range sessions], visiting the entries in the
    order [entries]; [updates] is the slice built so far. *)
Fixpoint Apply_range (h : gmap ptr models.Session)
    (entries : list (ptr * list value)) (updates : list nameUpdate)
  : outcome (list nameUpdate) :=
  match entries with
  | [] => Returns updates
  | (s, e) :: rest =>
      match lastNameUpdate h s e with
      | Returns u => Apply_range h rest (updates ++ [u])
      | Panics p => Panics p
      end
  end.

Section Handlers.
Context {Tx Pool : Type}.

(** [models.BulkSQL] is not among the sources: what it does with the
    transaction, and what it returns, is left open. *)
Variable BulkSQL : BulkSQLCall → Tx → outcome error * Tx.

(** The call [models.BulkSQL(ctx, label, tx, sql, vs)] in a world: it
    reaches the transaction only. *)
Definition call_BulkSQL (label sql : string) (vs : list nameUpdate)
  : models.M Tx Pool error :=
  λ w, let r := BulkSQL {| bulk_label := label; bulk_sql := sql;
                           bulk_rows := vs |} (models.w_tx w) in
       (r.1, {| models.w_sessions := models.w_sessions w;
                models.w_tx := r.2;
                models.w_rp := models.w_rp w;
                models.w_log := models.w_log w |}).

(** [CommitContactNameChanges.Apply] with the map visited in the order
    [entries]. *)
Definition Apply_in_order (entries : list (ptr * list value))
  : models.M Tx Pool error :=
  λ w, match Apply_range (models.w_sessions w) entries [] with
       | Panics p => (Panics p, w)
       | Returns updates =>
           call_BulkSQL "updating contact name" updateContactNameSQL
             updates w
       end.

(** [func (h *CommitContactNameChanges) Apply(ctx, tx, rp, org, sessions)]
    with the map visited in the order of [map_to_list]. *)
Definition Apply (sessions : gmap ptr (list value)) : models.M Tx Pool error :=
  Apply_in_order (map_to_list sessions).

(** [func applyContactNameChanged(ctx, tx, rp, session, e) error] *)
Definition applyContactNameChanged (session : ptr) (e : value)
  : models.M Tx Pool error :=
  event ← models.pure (assert_ContactNameChangedEvent e);
  sess ← models.load session;
  name ← models.pure (select_Name event);
  _ ← models.Debug
        [("contact_uuid", LStr (models.ContactUUID sess));
         ("session_id", LInt (models.ID sess));
         ("name", LStr name)]
        "changing contact name";
  _ ← models.Session_AddPreCommitEvent session commitContactNameChanges
        (ContactNameChangedEvent_ptr event);
  mret None.

End Handlers.

(** A transaction that only records the [BulkSQL] calls made on it. *)
Definition recording : BulkSQLCall → list BulkSQLCall →
    outcome error * list BulkSQLCall :=
  λ c calls, (Returns None, calls ++ [c]).

End handlers.

(** ** The statement [updateContactNameSQL] on the table
    [contacts_contact] *)

Module postgres.

Section Table.
Context {Time Other : Type}.

(** A row of [contacts_contact]: the three columns the statement names,
    and all the other columns together. *)
Record contact := {
  row_id : Z;
  row_name : string;
  row_modified_on : Time;
  row_other : Other
}.

(** The cast [r.id::int] to a 32-bit integer: it fails out of range. *)
Definition cast_int (z : Z) : option Z :=
  if decide (- 2 ^ 31 ≤ z < 2 ^ 31)%Z then Some z else None.

(** The rows of [r(id, name)] that [WHERE c.id = r.id::int] joins with
    [c]. *)
Definition joined (c : contact) (rows : list handlers.nameUpdate)
  : list handlers.nameUpdate :=
  filter (λ r, cast_int (handlers.ContactID r) = Some (row_id c)) rows.

(** [SET name = r.name, modified_on = NOW()] on the row [c]. *)
Definition set_name (now : Time) (c : contact) (r : handlers.nameUpdate)
  : contact :=
  {| row_id := row_id c;
     row_name := handlers.Name r;
     row_modified_on := now;
     row_other := row_other c |}.

(** What the statement does to one row.  When several rows of [r] join
    with [c], one of them is used and the database does not say which:
    [choose] stands for that choice. *)
Definition update_row (now : Time) (choose : contact → nat)
    (rows : list handlers.nameUpdate) (c : contact) : contact :=
  match joined c rows with
  | [] => c
  | r0 :: rs =>
      set_name now c (nth (choose c `mod` length (r0 :: rs)) (r0 :: rs) r0)
  end.

(** The statement run with one [VALUES] tuple per element of [rows], at
    time [now]: the error it reports and the table it leaves.  A failed
    cast aborts the statement and nothing is written. *)
Definition exec_updateContactNameSQL (now : Time) (choose : contact → nat)
    (rows : list handlers.nameUpdate) (table : list contact)
  : error * list contact :=
  if decide (Forall (λ r, is_Some (cast_int (handlers.ContactID r))) rows)
  then (None, update_row now choose rows <$> table)
  else (Some "integer out of range", table).

End Table.

Arguments contact : clear implicits.

End postgres.

(** ** The batch committer (registry, dispatcher, grouping, commit)

    None of this is among the sources: it lives in package [models].  Each
    definition follows the spec's sections 4.1, 4.2 and 4.5. *)

Module committer.

(** Modelled from the spec: an event is [{type: string, payload: opaque}]
    (section 3); the type declaration is not among the sources. *)
Record Event := {
  event_type : string;
  payload : value
}.

Section Committer.
Context {DB : Type}.

(** Modelled from the spec: a handler (section 3) gets the transaction,
    the session and the event, and returns an error.  Its side effects go
    through the transaction (section 4.2) and the session's queue; the
    handler type is not among the sources. *)
Definition Handler : Type :=
  ptr → Event → DB * gmap ptr models.Session →
  error * (DB * gmap ptr models.Session).

(** Modelled from the spec: a hook's [Apply] (section 4.4) gets the
    transaction and the mapping from session to ordered data, and returns
    an error; sessions are read-only during commit (section 3).  The
    interface is not among the sources. *)
Definition HookApply : Type :=
  gmap ptr models.Session → gmap ptr (list value) → DB → error * DB.

(** The registry built at start-up, the bulk-apply strategy each hook key
    locates, and the acquisition of the transaction. *)
Variable registry : gmap string Handler.
Variable strategy : models.Hook → HookApply.
Variable acquire : DB → error.

(** Modelled from the spec: [Dispatch] (section 4.2), absent from the
    sources.  No handler for the event's type is an error that aborts the
    batch; otherwise the handler runs synchronously. *)
Definition Dispatch (session : ptr) (ev : Event)
    (st : DB * gmap ptr models.Session)
  : error * (DB * gmap ptr models.Session) :=
  match registry !! event_type ev with
  | None => (Some ("no handler for event type " +:+ event_type ev), st)
  | Some handler => handler session ev st
  end.

(** Modelled from the spec: the Dispatching state (section 4.5), absent
    from the sources: every (session, event) pair in submission order; a
    failure aborts the batch. *)
Fixpoint dispatch_session (session : ptr) (evs : list Event)
    (st : DB * gmap ptr models.Session)
  : error * (DB * gmap ptr models.Session) :=
  match evs with
  | [] => (None, st)
  | ev :: rest =>
      match Dispatch session ev st with
      | (None, st') => dispatch_session session rest st'
      | (Some e, st') => (Some e, st')
      end
  end.

Fixpoint Dispatching (batch : list (ptr * list Event))
    (st : DB * gmap ptr models.Session)
  : error * (DB * gmap ptr models.Session) :=
  match batch with
  | [] => (None, st)
  | (s, evs) :: rest =>
      match dispatch_session s evs st with
      | (None, st') => Dispatching rest st'
      | (Some e, st') => (Some e, st')
      end
  end.

(** Modelled from the spec: the Grouping state (section 4.5), absent from
    the sources: every session's pre-commit mapping is inverted into one
    mapping from hook to (session to ordered data), by a fold over the
    sessions of the batch. *)
Definition group_session (s : ptr) (queue : gmap models.Hook (list value))
    (g : gmap models.Hook (gmap ptr (list value)))
  : gmap models.Hook (gmap ptr (list value)) :=
  merge (λ q prev,
           match q with
           | Some data => Some (<[s := data]> (default ∅ prev))
           | None => prev
           end) queue g.

Definition Grouping (h : gmap ptr models.Session) (batch : list ptr)
  : gmap models.Hook (gmap ptr (list value)) :=
  foldl (λ g s,
           match h !! s with
           | Some sess => group_session s (models.PreCommitEvents sess) g
           | None => g
           end) ∅ batch.

(** Modelled from the spec: the Committing state (section 4.5), absent
    from the sources: [Apply] is called for each hook of the grouping,
    here in the order [plan]; the first failure stops the loop and its
    error, with the hook's name, is reported.  [invoked] records the calls
    made. *)
Fixpoint apply_hooks (h : gmap ptr models.Session)
    (plan : list (models.Hook * gmap ptr (list value))) (tx : DB)
    (invoked : list (models.Hook * gmap ptr (list value)))
  : error * DB * list (models.Hook * gmap ptr (list value)) :=
  match plan with
  | [] => (None, tx, invoked)
  | (hook, data) :: rest =>
      match strategy hook h data tx with
      | (None, tx') => apply_hooks h rest tx' (invoked ++ [(hook, data)])
      | (Some e, tx') =>
          (Some ("error applying pre commit hook " +:+ hook +:+ ": " +:+ e),
           tx', invoked ++ [(hook, data)])
      end
  end.

(** What a caller of [ProcessBatch] can see afterwards: the error, the
    committed database, the sessions, and (for the statements below) the
    hook invocations that were made. *)
Record BatchResult := {
  batch_error : error;
  batch_db : DB;
  batch_sessions : gmap ptr models.Session;
  batch_invoked : list (models.Hook * gmap ptr (list value))
}.

(** Modelled from the spec: [ProcessBatch] (sections 4.5 and 6), absent
    from the sources.  One transaction is opened on the database (a
    failure to acquire it is returned and nothing is attempted); events are
    dispatched, the queues grouped, every hook applied; the transaction is
    committed when all of this succeeded and rolled back otherwise. *)
Definition ProcessBatch (batch : list (ptr * list Event)) (db : DB)
    (h : gmap ptr models.Session) : BatchResult :=
  match acquire db with
  | Some e =>
      {| batch_error := Some e; batch_db := db; batch_sessions := h;
         batch_invoked := [] |}
  | None =>
      match Dispatching batch (db, h) with
      | (Some e, (_, h')) =>
          {| batch_error := Some e; batch_db := db; batch_sessions := h';
             batch_invoked := [] |}
      | (None, (tx, h')) =>
          match apply_hooks h' (map_to_list (Grouping h' batch.*1)) tx [] with
          | (Some e, _, invoked) =>
              {| batch_error := Some e; batch_db := db;
                 batch_sessions := h'; batch_invoked := invoked |}
          | (None, tx', invoked) =>
              {| batch_error := None; batch_db := tx';
                 batch_sessions := h'; batch_invoked := invoked |}
          end
      end
  end.

(** Every hook of [plan] applied in turn from [tx], each returning nil:
    [tx'] holds the effects of them all. *)
Inductive all_applied (h : gmap ptr models.Session)
  : list (models.Hook * gmap ptr (list value)) → DB → DB → Prop :=
| all_applied_nil tx : all_applied h [] tx tx
| all_applied_cons hook data rest tx tx1 tx' :
    strategy hook h data tx = (None, tx1) →
    all_applied h rest tx1 tx' →
    all_applied h ((hook, data) :: rest) tx tx'.

End Committer.

(** The events a session queued under [hook], in submission order, given
    the [AddPreCommitEvent] calls it received. *)
Definition queued_under (hook : models.Hook)
    (calls : list (models.Hook * value)) : list value :=
  (filter (λ c, c.1 = hook) calls).*2.

(** The session after the [AddPreCommitEvent] calls [calls], in order. *)
Definition after_calls (calls : list (models.Hook * value))
    (s : models.Session) : models.Session :=
  foldl (λ s c, models.AddPreCommitEvent c.1 c.2 s) s calls.

End committer.

(** ** Vocabulary of the statements *)

(** The pointer [s] is not nil and points to a session of [h]. *)
Definition valid_session (h : gmap ptr models.Session) (s : ptr) : Prop :=
  s ≠ nil ∧ is_Some (h !! s).

(** The event a sequence ends with, when that is a non-nil pointer to a
    name-change event. *)
Definition final_event (e : list value)
  : option events.ContactNameChangedEvent :=
  match last e with
  | Some (ContactNameChangedEvent_ptr (Some ev)) => Some ev
  | _ => None
  end.

(** What [Apply] needs of the entry [(s, e)] of its map. *)
Definition well_formed (h : gmap ptr models.Session) (s : ptr)
    (e : list value) : Prop :=
  valid_session h s ∧ is_Some (final_event e).

#[global] Instance valid_session_dec h s : Decision (valid_session h s).
Proof. unfold valid_session. apply _. Defined.

#[global] Instance well_formed_dec h s e : Decision (well_formed h s e).
Proof. unfold well_formed. apply _. Defined.

(** An outcome that is a panic. *)
Definition panicked {A} (c : outcome A) : Prop :=
  match c with
  | Panics _ => True
  | Returns _ => False
  end.


(** ** Package [web/flow]: [flow.go] *)

Module flow.

(** The status codes of [net/http] the handlers use. *)
Definition StatusOK : Z := 200.
Definition StatusBadRequest : Z := 400.
Definition StatusUnprocessableEntity : Z := 422.

(** [errors.Wrapf(err, msg)] on a non-nil [err]: an error whose message is
    [msg], a colon, and the message of [err]. *)
Definition Wrapf (err msg : string) : string := msg +:+ ": " +:+ err.

(** [type migrateRequest struct] *)
Record migrateRequest := {
  migrate_Flow : string;
  migrate_ToVersion : option string
}.

(** [type inspectRequest struct] *)
Record inspectRequest := {
  inspect_Flow : string;
  inspect_ValidateWithOrgID : Z
}.

(** [type cloneRequest struct] *)
Record cloneRequest := {
  clone_DependencyMapping : gmap string string;
  clone_Flow : string;
  clone_ValidateWithOrgID : Z
}.

(** The first result of a handler, an [interface{}]: nil, an error value,
    a JSON definition, or the result of [flow.Inspect()]. *)
Inductive response (Inspection : Type) :=
| no_response
| failure (err : string)
| definition (json : string)
| inspection (info : Inspection).
Arguments no_response {Inspection}.
Arguments failure {Inspection} err.
Arguments definition {Inspection} json.
Arguments inspection {Inspection} info.

(** [result != nil] *)
Definition not_nil {Inspection} (r : response Inspection) : bool :=
  match r with
  | no_response => false
  | _ => true
  end.

Section Handlers.
Context {Body Flow Inspection OrgAssets SessionAssets DB : Type}.

(** What the handlers call and is not among the sources: the decoding and
    validation of a request body into each request type
    ([utils.UnmarshalAndValidateWithLimit]), the limit
    [web.MaxRequestBytes], the flow engine ([goflow.MigrateDefinition],
    [goflow.ReadFlow], [goflow.CloneDefinition], [flow.Inspect],
    [flow.CheckDependencies]), and the assets ([models.NilOrgID],
    [models.NewOrgAssets], [models.NewSessionAssets]).  A call that
    returns a value and an error returns one or the other. *)
Variable MaxRequestBytes : Z.
Variable decode_migrateRequest : Body → Z → string + migrateRequest.
Variable decode_inspectRequest : Body → Z → string + inspectRequest.
Variable decode_cloneRequest : Body → Z → string + cloneRequest.
Variable MigrateDefinition : string → option string → string + string.
Variable ReadFlow : string → string + Flow.
Variable CloneDefinition : string → gmap string string → string + string.
Variable Inspect : Flow → Inspection.
Variable CheckDependencies : Flow → SessionAssets → error.
Variable NilOrgID : Z.
Variable NewOrgAssets : DB → Z → string + OrgAssets.
Variable NewSessionAssets : OrgAssets → string + SessionAssets.

(** [func handleMigrate(ctx, s, r) (interface{}, int, error)] *)
Definition handleMigrate (body : Body) : response Inspection * Z * error :=
  match decode_migrateRequest body MaxRequestBytes with
  | inl err =>
      (failure (Wrapf err "request failed validation"), StatusBadRequest, None)
  | inr request =>
      match MigrateDefinition (migrate_Flow request)
              (migrate_ToVersion request) with
      | inl err =>
          (failure (Wrapf err "unable to migrate flow"),
           StatusUnprocessableEntity, None)
      | inr migrated =>
          match ReadFlow migrated with
          | inl err =>
              (failure (Wrapf err "unable to read migrated flow"),
               StatusUnprocessableEntity, None)
          | inr _ => (definition migrated, StatusOK, None)
          end
      end
  end.

(** [func checkDependencies(ctx, db, orgID, flow) (interface{}, int, error)] *)
Definition checkDependencies (db : DB) (orgID : Z) (flow : Flow)
  : response Inspection * Z * error :=
  match NewOrgAssets db orgID with
  | inl err => (no_response, 0%Z, Some err)
  | inr org =>
      match NewSessionAssets org with
      | inl err => (no_response, 0%Z, Some err)
      | inr sa =>
          match CheckDependencies flow sa with
          | Some err =>
              (failure (Wrapf err "flow failed validation"),
               StatusUnprocessableEntity, None)
          | None => (no_response, 0%Z, None)
          end
      end
  end.

(** [func handleInspect(ctx, s, r) (interface{}, int, error)]; [db] is
    [s.DB]. *)
Definition handleInspect (db : DB) (body : Body)
  : response Inspection * Z * error :=
  match decode_inspectRequest body MaxRequestBytes with
  | inl err =>
      (failure (Wrapf err "request failed validation"), StatusBadRequest, None)
  | inr request =>
      match ReadFlow (inspect_Flow request) with
      | inl err =>
          (failure (Wrapf err "unable to read flow"),
           StatusUnprocessableEntity, None)
      | inr flow =>
          if decide (inspect_ValidateWithOrgID request ≠ NilOrgID) then
            let '(result, status, err) :=
              checkDependencies db (inspect_ValidateWithOrgID request) flow in
            if not_nil result || bool_decide (err ≠ None)
            then (result, status, err)
            else (inspection (Inspect flow), StatusOK, None)
          else (inspection (Inspect flow), StatusOK, None)
      end
  end.

(** [func handleClone(ctx, s, r) (interface{}, int, error)]; [db] is
    [s.DB]. *)
Definition handleClone (db : DB) (body : Body)
  : response Inspection * Z * error :=
  match decode_cloneRequest body MaxRequestBytes with
  | inl err =>
      (failure (Wrapf err "request failed validation"), StatusBadRequest, None)
  | inr request =>
      match CloneDefinition (clone_Flow request)
              (clone_DependencyMapping request) with
      | inl err =>
          (failure (Wrapf err "unable to read flow"),
           StatusUnprocessableEntity, None)
      | inr cloneJSON =>
          if decide (clone_ValidateWithOrgID request ≠ NilOrgID) then
            match ReadFlow cloneJSON with
            | inl err =>
                (failure (Wrapf err "unable to clone flow"),
                 StatusUnprocessableEntity, None)
            | inr clone =>
                let '(result, status, err) :=
                  checkDependencies db (clone_ValidateWithOrgID request)
                    clone in
                if not_nil result || bool_decide (err ≠ None)
                then (result, status, err)
                else (definition cloneJSON, StatusOK, None)
            end
          else (definition cloneJSON, StatusOK, None)
      end
  end.

(** The assets of an org load and the flow passes the dependency check
    against them. *)
Definition dependencies_pass (db : DB) (orgID : Z) (f : Flow) : Prop :=
  ∃ org sa, NewOrgAssets db orgID = inr org ∧
            NewSessionAssets org = inr sa ∧
            CheckDependencies f sa = None.

(** The assets of an org fail to load. *)
Definition assets_fail (db : DB) (orgID : Z) (err : string) : Prop :=
  NewOrgAssets db orgID = inl err ∨
  ∃ org, NewOrgAssets db orgID = inr org ∧ NewSessionAssets org = inl err.

End Handlers.

End flow.

(** The sequence the session behind [s] holds under [hook], if it has
    one; [AddPreCommitEvent] creates it with the first event queued. *)
Definition queue_of (h : gmap ptr models.Session) (s : ptr)
    (hook : models.Hook) : option (list value) :=
  h !! s ≫= λ sess, models.PreCommitEvents sess !! hook.


(** ** Concrete data, used by the examples further down *)

Module example.

Definition A : value :=
  ContactNameChangedEvent_ptr (Some {| events.Name := "A" |}).
Definition B : value :=
  ContactNameChangedEvent_ptr (Some {| events.Name := "B" |}).

(** Four sessions: of the contacts 7, 8 and 9, and of a contact whose id
    does not fit 32 bits. *)
Definition store : gmap ptr models.Session :=
  <[1%N := models.NewSession 10 7 "c7"]>
    (<[2%N := models.NewSession 11 8 "c8"]>
       (<[3%N := models.NewSession 12 9 "c9"]>
          (<[4%N := models.NewSession 13 (2 ^ 31) "c2147483648"]> ∅))).

(** A world whose transaction records the [BulkSQL] calls made on it. *)
Definition world : models.World (list handlers.BulkSQLCall) unit :=
  {| models.w_sessions := store; models.w_tx := [];
     models.w_rp := (); models.w_log := [] |}.

(** Session 1 changed its name twice, session 2 once. *)
Definition sessions : gmap ptr (list value) :=
  <[1%N := [A; B]]> (<[2%N := [A]]> ∅).

(** Session 1 has an empty sequence. *)
Definition sessions_empty : gmap ptr (list value) :=
  <[1%N := []]> ∅.

(** Session 1 has a datum of another type before its name change. *)
Definition sessions_mixed : gmap ptr (list value) :=
  <[1%N := [other_dynamic "string"; B]]> ∅.

(** A table with the two contacts and a third. *)
Definition table : list (postgres.contact nat string) :=
  [ {| postgres.row_id := 7; postgres.row_name := "old7";
       postgres.row_modified_on := 0; postgres.row_other := "x" |};
    {| postgres.row_id := 8; postgres.row_name := "old8";
       postgres.row_modified_on := 0; postgres.row_other := "y" |};
    {| postgres.row_id := 9; postgres.row_name := "old9";
       postgres.row_modified_on := 0; postgres.row_other := "z" |} ].

Definition name_changed (v : value) : committer.Event :=
  {| committer.event_type := "contact_name_changed"; committer.payload := v |}.

(** An event no handler is registered for. *)
Definition unknown : committer.Event :=
  {| committer.event_type := "unknown"; committer.payload := nil_interface |}.

(** Session 1 changes its name twice, session 2 once. *)
Definition batch : list (ptr * list committer.Event) :=
  [(1%N, [name_changed A; name_changed B]); (2%N, [name_changed A])].

(** Session 1 changes its name and then emits an event without a
    handler. *)
Definition batch_failing : list (ptr * list committer.Event) :=
  [(1%N, [name_changed A; unknown])].

(** *** The handler and the hook of package [handlers] under the committer *)

(** A [BulkSQL] that runs the statement on the table, with one [VALUES]
    tuple per row, at time 5. *)
Definition run_statement
  : handlers.BulkSQLCall → list (postgres.contact nat string) →
    outcome error * list (postgres.contact nat string) :=
  λ c table,
    let r := postgres.exec_updateContactNameSQL 5 (λ _, 0)
               (handlers.bulk_rows c) table in
    (Returns r.1, r.2).

(** A call of package [handlers] run on the transaction and the sessions
    of the committer.  A panic ends the batch like an error does: nothing
    is committed. *)
Definition run {DB} (f : models.M DB unit error) (tx : DB)
    (h : gmap ptr models.Session) : error * (DB * gmap ptr models.Session) :=
  let r := f {| models.w_sessions := h; models.w_tx := tx;
                models.w_rp := (); models.w_log := [] |} in
  (match r.1 with
   | Returns err => err
   | Panics _ => Some "panic"
   end, (models.w_tx r.2, models.w_sessions r.2)).

(** The registry after [init()]:
    [models.RegisterEventHandler(events.TypeContactNameChanged, applyContactNameChanged)]. *)
Definition mailroom_registry
  : gmap string (@committer.Handler (list (postgres.contact nat string))) :=
  <["contact_name_changed" :=
      λ s ev st,
        run (handlers.applyContactNameChanged s (committer.payload ev))
          st.1 st.2]> ∅.

(** The hooks: [commitContactNameChanges] applies [Apply]; there is no
    other. *)
Definition mailroom_hooks
  : models.Hook → @committer.HookApply (list (postgres.contact nat string)) :=
  λ hook h data tx,
    if decide (hook = handlers.commitContactNameChanges)
    then let r := run (handlers.Apply run_statement data) tx h in (r.1, r.2.1)
    else (None, tx).

Definition named (name : string) : committer.Event :=
  name_changed (ContactNameChangedEvent_ptr (Some {| events.Name := name |})).

(** Session 1 is renamed twice, session 2 once, session 3 emits
    nothing. *)
Definition batch_of_three : list (ptr * list committer.Event) :=
  [(1%N, [named "Al"; named "Alice"]); (2%N, [named "Bob"]); (3%N, [])].

(** Session 1 is renamed, and so is session 4, whose contact id makes the
    statement fail. *)
Definition batch_rolled_back : list (ptr * list committer.Event) :=
  [(1%N, [named "Alice"]); (4%N, [named "Zed"])].

End example.

(** The handler called once per event of [es], in order, on one session.
    A panic, or an error, ends the sequence. *)
Fixpoint handle_events {Tx Pool : Type} (session : ptr) (es : list value)
  : models.M Tx Pool error :=
  match es with
  | [] => mret None
  | e :: rest =>
      λ w, match handlers.applyContactNameChanged session e w with
           | (Returns None, w') => handle_events session rest w'
           | r => r
           end
  end.

(** A name-change event as the interface value the handler receives. *)
Definition as_value (ev : events.ContactNameChangedEvent) : value :=
  ContactNameChangedEvent_ptr (Some ev).


(** ** Concrete collaborators for the handlers of [web/flow] *)

Module example_flow.

(** A request body is the flow definition itself; it is refused when it
    is longer than the limit.  The org to validate against is fixed by
    [org]. *)
Definition decode_inspectRequest (org : Z) (body : string) (limit : Z)
  : string + flow.inspectRequest :=
  if decide (Z.of_nat (String.length body) ≤ limit)%Z
  then inr {| flow.inspect_Flow := body;
              flow.inspect_ValidateWithOrgID := org |}
  else inl "request too large".

Definition decode_cloneRequest (org : Z) (body : string) (limit : Z)
  : string + flow.cloneRequest :=
  if decide (Z.of_nat (String.length body) ≤ limit)%Z
  then inr {| flow.clone_DependencyMapping := ∅;
              flow.clone_Flow := body;
              flow.clone_ValidateWithOrgID := org |}
  else inl "request too large".

(** A flow is its definition; the empty definition does not read. *)
Definition ReadFlow (json : string) : string + string :=
  if decide (json = "") then inl "empty definition" else inr json.

(** A reader that refuses everything. *)
Definition ReadFlow_never (json : string) : string + string :=
  inl "unreadable".

Definition CloneDefinition (json : string) (mapping : gmap string string)
  : string + string :=
  inr ("clone of " +:+ json).

Definition Inspect (f : string) : nat := String.length f.

(** Only org 1 has assets; every flow passes the check against them. *)
Definition NewOrgAssets (db : unit) (org : Z) : string + Z :=
  if decide (org = 1%Z) then inr org else inl "no such org".

Definition NewSessionAssets (org : Z) : string + Z := inr org.

Definition CheckDependencies (f : string) (sa : Z) : error := None.

End example_flow.

(** The calls of the hooks' [Apply] made one after the other from the
    transaction [tx], each with the sessions [h]: [calls] lists the hook
    and the data handed to each call.  Every call but the last returned
    nil and the next one ran on the transaction it left; the run ends
    with the error [err] (the last call's, with the hook's name, or nil)
    and the transaction [tx']. *)
Inductive calls_made {DB : Type}
    (strategy : models.Hook → @committer.HookApply DB)
    (h : gmap ptr models.Session)
  : list (models.Hook * gmap ptr (list value)) → DB → error → DB → Prop :=
| calls_none tx : calls_made strategy h [] tx None tx
| calls_failed hook data tx e tx' :
    strategy hook h data tx = (Some e, tx') →
    calls_made strategy h [(hook, data)] tx
      (Some ("error applying pre commit hook " +:+ hook +:+ ": " +:+ e)) tx'
| calls_next hook data rest tx tx1 err tx' :
    strategy hook h data tx = (None, tx1) →
    calls_made strategy h rest tx1 err tx' →
    calls_made strategy h ((hook, data) :: rest) tx err tx'.

#[global] Instance not_nil_dec {A} (l : list A) : Decision (l ≠ []).
Proof. destruct l; [right | left]; congruence. Defined.

(** No session holds an empty queue: what [AddPreCommitEvent] maintains,
    since it creates a queue with its first event. *)
Definition queues_nonempty (h : gmap ptr models.Session) : Prop :=
  map_Forall (λ _ sess,
                map_Forall (λ _ (data : list value), data ≠ [])
                  (models.preCommits sess)) h.

#[global] Instance queues_nonempty_dec h : Decision (queues_nonempty h).
Proof. unfold queues_nonempty. apply _. Defined.


(** * Properties *)

(** ** Go run-time notions *)

Lemma index_last {A} (e : list A) :
  index e (len e - 1) =
  match last e with
  | Some x => Returns x
  | None => Panics IndexOutOfRange
  end.
Proof.
  unfold index, len. rewrite last_lookup.
  destruct e as [|x e]; simpl length.
  - case_decide; [lia | done].
  - case_decide; [|lia].
    replace (Z.to_nat (Z.of_nat (S (length e)) - 1)) with (pred (S (length e))) by lia.
    by destruct ((x :: e) !! pred (S (length e))).
Qed.

Lemma deref_Returns {A} (h : gmap ptr A) s a :
  deref h s = Returns a ↔ s ≠ nil ∧ h !! s = Some a.
Proof.
  unfold deref. case_decide as Hs.
  - split; [done | by intros [? _]].
  - destruct (h !! s) as [b|]; split.
    + by intros [= ->].
    + by intros [_ [= ->]].
    + done.
    + by intros [_ ?].
Qed.

Lemma deref_valid (h : gmap ptr models.Session) s :
  valid_session h s ↔ ∃ sess, deref h s = Returns sess.
Proof.
  unfold valid_session. split.
  - intros [Hs [sess Hh]]. exists sess. by apply deref_Returns.
  - intros [sess [Hs Hh]%deref_Returns]. eauto.
Qed.

Lemma int64_in_range z :
  (- 2 ^ 63 ≤ z < 2 ^ 63)%Z → int64 z = z.
Proof. intros Hz. unfold int64. rewrite Z.mod_small; lia. Qed.

(** ** The loop of [Apply] *)

Lemma lastNameUpdate_unfold h s e :
  handlers.lastNameUpdate h s e =
  match last e with
  | None => Panics IndexOutOfRange
  | Some (ContactNameChangedEvent_ptr p) =>
      match deref h s with
      | Panics q => Panics q
      | Returns sess =>
          match p with
          | None => Panics NilDereference
          | Some ev =>
              Returns {| handlers.ContactID := int64 (models.ContactID sess);
                         handlers.Name := events.Name ev |}
          end
      end
  | Some _ => Panics InterfaceConversion
  end.
Proof.
  unfold handlers.lastNameUpdate. rewrite index_last.
  destruct (last e) as [[|[ev|]|]|]; simpl; try done;
    by destruct (deref h s).
Qed.

Lemma lastNameUpdate_Returns h s e u :
  handlers.lastNameUpdate h s e = Returns u ↔
  ∃ sess ev, s ≠ nil ∧ h !! s = Some sess ∧
    last e = Some (ContactNameChangedEvent_ptr (Some ev)) ∧
    u = {| handlers.ContactID := int64 (models.ContactID sess);
           handlers.Name := events.Name ev |}.
Proof.
  rewrite lastNameUpdate_unfold. split.
  - destruct (last e) as [[|[ev|]|]|]; try done;
      destruct (deref h s) as [sess|] eqn:Hd; try done.
    intros [= <-]. apply deref_Returns in Hd as [? ?]. by exists sess, ev.
  - intros (sess & ev & Hs & Hh & -> & ->).
    by rewrite (proj2 (deref_Returns h s sess)).
Qed.

Lemma lastNameUpdate_well_formed h s e :
  well_formed h s e ↔ ∃ u, handlers.lastNameUpdate h s e = Returns u.
Proof.
  unfold well_formed, valid_session, final_event. split.
  - intros [[Hs [sess Hh]] [ev Hev]].
    destruct (last e) as [[|[ev'|]|]|] eqn:Hl; try done.
    eexists. apply lastNameUpdate_Returns. by exists sess, ev'.
  - intros [u (sess & ev & Hs & Hh & Hl & _)%lastNameUpdate_Returns].
    rewrite Hl, Hh. eauto.
Qed.

Lemma Apply_range_Returns h entries updates us :
  handlers.Apply_range h entries updates = Returns us ↔
  ∃ rows, us = updates ++ rows ∧
    Forall2 (λ se u, handlers.lastNameUpdate h se.1 se.2 = Returns u)
      entries rows.
Proof.
  revert updates. induction entries as [|[s e] entries IH]; intros updates; simpl.
  - split.
    + intros [= <-]. exists []. by rewrite app_nil_r.
    + intros (rows & -> & ->%Forall2_nil_inv_l). by rewrite app_nil_r.
  - destruct (handlers.lastNameUpdate h s e) as [u|p] eqn:Hu.
    + rewrite IH. split.
      * intros (rows & -> & Hrows). exists (u :: rows).
        split; [by rewrite <-app_assoc | by constructor].
      * intros (rows & -> & Hrows).
        apply Forall2_cons_inv_l in Hrows as (u' & rows' & Hu' & Hrows & ->).
        simpl in Hu'. rewrite Hu in Hu'. injection Hu' as <-.
        exists rows'. by rewrite <-app_assoc.
    + split; [done|].
      intros (rows & _ & Hrows).
      apply Forall2_cons_inv_l in Hrows as (u' & rows' & Hu' & _).
      simpl in Hu'. congruence.
Qed.

Lemma Apply_range_total h entries updates :
  Forall (λ se, well_formed h se.1 se.2) entries ↔
  ∃ us, handlers.Apply_range h entries updates = Returns us.
Proof.
  split.
  - intros Hwf.
    assert (∃ rows, Forall2 (λ se u, handlers.lastNameUpdate h se.1 se.2 = Returns u) entries rows)
      as [rows Hrows].
    { induction Hwf as [|se entries [u Hu]%lastNameUpdate_well_formed _ [rows IH]].
      - by exists [].
      - exists (u :: rows). by constructor. }
    exists (updates ++ rows). apply Apply_range_Returns. eauto.
  - intros [us (rows & _ & Hrows)%Apply_range_Returns].
    induction Hrows as [|se u entries rows Hu _ IH]; constructor; [|done].
    apply lastNameUpdate_well_formed. eauto.
Qed.

Lemma Apply_range_Panics h entries updates :
  panicked (handlers.Apply_range h entries updates) ↔
  Exists (λ se, panicked (handlers.lastNameUpdate h se.1 se.2)) entries.
Proof.
  revert updates. induction entries as [|[s e] entries IH]; intros updates; simpl.
  - split; [done | by intros ?%Exists_nil].
  - rewrite Exists_cons. simpl.
    destruct (handlers.lastNameUpdate h s e) as [u|p]; simpl.
    + rewrite IH. tauto.
    + tauto.
Qed.

Lemma entries_Forall {A} (P : ptr → A → Prop) (m : gmap ptr A) entries :
  entries ≡ₚ map_to_list m →
  map_Forall P m ↔ Forall (λ se, P se.1 se.2) entries.
Proof.
  intros Hp. rewrite Forall_forall. unfold map_Forall. split.
  - intros Hm [s e] Hin. rewrite Hp in Hin.
    apply elem_of_map_to_list in Hin. by apply Hm.
  - intros Hl s e Hse. apply (Hl (s, e)). rewrite Hp.
    by apply elem_of_map_to_list.
Qed.

Lemma entries_length {A} (m : gmap ptr A) entries :
  entries ≡ₚ map_to_list m → length entries = size m.
Proof. intros ->. by rewrite length_map_to_list. Qed.

Lemma Apply_in_order_Returns {Tx Pool}
    (BulkSQL : handlers.BulkSQLCall → Tx → outcome error * Tx)
    (w : models.World Tx Pool) entries updates :
  handlers.Apply_range (models.w_sessions w) entries [] = Returns updates →
  handlers.Apply_in_order BulkSQL entries w =
  handlers.call_BulkSQL BulkSQL "updating contact name"
    handlers.updateContactNameSQL updates w.
Proof. unfold handlers.Apply_in_order. by intros ->. Qed.

Lemma Apply_in_order_Panics {Tx Pool}
    (BulkSQL : handlers.BulkSQLCall → Tx → outcome error * Tx)
    (w : models.World Tx Pool) entries :
  panicked (handlers.Apply_range (models.w_sessions w) entries []) →
  ∃ p, handlers.Apply_range (models.w_sessions w) entries [] = Panics p ∧
       handlers.Apply_in_order BulkSQL entries w = (Panics p, w).
Proof.
  unfold handlers.Apply_in_order.
  destruct (handlers.Apply_range _ _ _) as [us|p]; [done|]. eauto.
Qed.

Lemma Apply_rows h (sessions : gmap ptr (list value)) entries :
  entries ≡ₚ map_to_list sessions →
  map_Forall (well_formed h) sessions →
  ∃ updates,
    handlers.Apply_range h entries [] = Returns updates ∧
    Forall2 (λ se u, handlers.lastNameUpdate h se.1 se.2 = Returns u)
      entries updates.
Proof.
  intros Hp Hwf. apply (entries_Forall _ _ _ Hp) in Hwf.
  apply (Apply_range_total h entries []) in Hwf as [us Hus].
  exists us. split; [done|].
  by apply Apply_range_Returns in Hus as (rows & -> & Hrows).
Qed.


(** ** The statement on the table *)

Section Statement.
Context {Time Other : Type}.
Implicit Types (c : postgres.contact Time Other) (rows : list handlers.nameUpdate).

Lemma cast_int_Some z z' : postgres.cast_int z = Some z' → z' = z.
Proof. unfold postgres.cast_int. case_decide; congruence. Qed.

Lemma elem_of_joined c rows u :
  u ∈ postgres.joined c rows ↔
  u ∈ rows ∧ postgres.cast_int (handlers.ContactID u) = Some (postgres.row_id c).
Proof. unfold postgres.joined. rewrite list_elem_of_filter. tauto. Qed.

Lemma joined_nil c rows :
  postgres.row_id c ∉ handlers.ContactID <$> rows → postgres.joined c rows = [].
Proof.
  intros Hid. apply elem_of_nil_inv. intros u [Hu Hc]%elem_of_joined.
  apply cast_int_Some in Hc. apply Hid. rewrite Hc.
  by apply list_elem_of_fmap_2.
Qed.

Lemma update_row_cases now choose rows c :
  (postgres.joined c rows = [] ∧ postgres.update_row now choose rows c = c) ∨
  (∃ u, u ∈ postgres.joined c rows ∧
        postgres.update_row now choose rows c = postgres.set_name now c u).
Proof.
  unfold postgres.update_row.
  destruct (postgres.joined c rows) as [|r0 rs] eqn:Hj; [by left|right].
  set (k := choose c `mod` length (r0 :: rs)).
  assert (k < length (r0 :: rs)) as Hk by (apply Nat.mod_upper_bound; done).
  apply lookup_lt_is_Some in Hk as [u Hu].
  exists u. split; [by eapply list_elem_of_lookup_2|].
  by rewrite (nth_lookup_Some _ _ _ _ Hu).
Qed.

Lemma update_row_id now choose rows c :
  postgres.row_id (postgres.update_row now choose rows c) = postgres.row_id c.
Proof. by destruct (update_row_cases now choose rows c) as [[_ ->]|(u & _ & ->)]. Qed.

Lemma update_row_other now choose rows c :
  postgres.row_other (postgres.update_row now choose rows c) = postgres.row_other c.
Proof. by destruct (update_row_cases now choose rows c) as [[_ ->]|(u & _ & ->)]. Qed.

(** When every row of [rows] for the contact of [c] carries the same name,
    that is the name [c] ends with, whichever row the database uses. *)
Lemma update_row_name now choose rows c u :
  u ∈ rows →
  postgres.cast_int (handlers.ContactID u) = Some (postgres.row_id c) →
  (∀ u', u' ∈ rows → handlers.ContactID u' = handlers.ContactID u →
         handlers.Name u' = handlers.Name u) →
  postgres.row_name (postgres.update_row now choose rows c) = handlers.Name u ∧
  postgres.row_modified_on (postgres.update_row now choose rows c) = now.
Proof.
  intros Hu Hc Hsame.
  destruct (update_row_cases now choose rows c) as [[Hnil _]|(u' & Hu' & ->)].
  - assert (u ∈ postgres.joined c rows) as Hin by by apply elem_of_joined.
    rewrite Hnil in Hin. by apply not_elem_of_nil in Hin.
  - apply elem_of_joined in Hu' as [Hu' Hc']. simpl. split; [|done].
    apply Hsame; [done|].
    apply cast_int_Some in Hc, Hc'. congruence.
Qed.

End Statement.

Lemma rows_omap h entries updates :
  Forall2 (λ se u, handlers.lastNameUpdate h se.1 se.2 = Returns u)
    entries updates →
  updates =
  omap (λ se, match handlers.lastNameUpdate h se.1 se.2 with
              | Returns u => Some u
              | Panics _ => None
              end) entries.
Proof.
  induction 1 as [|se u entries updates Hu _ IH]; [done|].
  simpl. rewrite Hu. simpl. by f_equal.
Qed.


(** ** The handler [applyContactNameChanged] *)

Lemma applyContactNameChanged_unfold {Tx Pool} (w : models.World Tx Pool)
    session e :
  handlers.applyContactNameChanged session e w =
  match assert_ContactNameChangedEvent e with
  | Panics p => (Panics p, w)
  | Returns event =>
      match deref (models.w_sessions w) session with
      | Panics p => (Panics p, w)
      | Returns sess =>
          match select_Name event with
          | Panics p => (Panics p, w)
          | Returns name =>
              (Returns None,
               {| models.w_sessions :=
                    <[session := models.AddPreCommitEvent
                                   handlers.commitContactNameChanges
                                   (ContactNameChangedEvent_ptr event) sess]>
                      (models.w_sessions w);
                  models.w_tx := models.w_tx w;
                  models.w_rp := models.w_rp w;
                  models.w_log := models.w_log w ++
                    [{| log_level := "debug";
                        log_fields :=
                          [("contact_uuid", LStr (models.ContactUUID sess));
                           ("session_id", LInt (models.ID sess));
                           ("name", LStr name)];
                        log_message := "changing contact name" |}] |})
          end
      end
  end.
Proof.
  unfold handlers.applyContactNameChanged, mbind, models.M_bind, models.bind,
    models.pure, models.load, models.Debug, models.Session_AddPreCommitEvent,
    models.bind, models.load, models.store, mret, models.M_ret, models.ret.
  destruct (assert_ContactNameChangedEvent e) as [event|]; [|done].
  destruct (deref (models.w_sessions w) session) as [sess|] eqn:Hd; [|done].
  destruct (select_Name event) as [name|]; [|done].
  simpl. by rewrite Hd.
Qed.

(** ** The pre-commit queue *)

Lemma AddPreCommitEvent_lookup hook data s hook' :
  models.preCommits (models.AddPreCommitEvent hook data s) !! hook' =
  if decide (hook = hook')
  then Some (default [] (models.preCommits s !! hook) ++ [data])
  else models.preCommits s !! hook'.
Proof. simpl. apply lookup_insert. Qed.

Lemma queued_under_snoc hook calls c :
  committer.queued_under hook (calls ++ [c]) =
  committer.queued_under hook calls ++ (if decide (c.1 = hook) then [c.2] else []).
Proof.
  unfold committer.queued_under.
  rewrite filter_app, fmap_app. f_equal.
  rewrite filter_cons, filter_nil. by case_decide.
Qed.

Lemma after_calls_lookup calls s0 hook :
  models.preCommits (committer.after_calls calls s0) !! hook =
  match committer.queued_under hook calls with
  | [] => models.preCommits s0 !! hook
  | data => Some (default [] (models.preCommits s0 !! hook) ++ data)
  end.
Proof.
  induction calls as [|c calls IH] using rev_ind; [done|].
  unfold committer.after_calls in *. rewrite foldl_app. cbn [foldl].
  rewrite AddPreCommitEvent_lookup, queued_under_snoc.
  case_decide as Hc.
  - rewrite Hc, IH.
    destruct (committer.queued_under hook calls) as [|d ds]; simpl.
    + done.
    + by rewrite <-app_assoc.
  - rewrite app_nil_r. apply IH.
Qed.

(** ** Grouping *)

Lemma group_session_lookup s queue g hook :
  committer.group_session s queue g !! hook =
  match queue !! hook with
  | Some data => Some (<[s := data]> (default ∅ (g !! hook)))
  | None => g !! hook
  end.
Proof.
  unfold committer.group_session. rewrite lookup_merge.
  by destruct (queue !! hook), (g !! hook).
Qed.

Lemma Grouping_from h batch g0 hook s :
  (foldl (λ g s, match h !! s with
                 | Some sess =>
                     committer.group_session s (models.PreCommitEvents sess) g
                 | None => g
                 end) g0 batch !! hook ≫= (.!! s)) =
  if decide (s ∈ batch ∧ is_Some (queue_of h s hook))
  then queue_of h s hook
  else g0 !! hook ≫= (.!! s).
Proof.
  revert g0. induction batch as [|s' batch IH]; intros g0; cbn [foldl].
  - rewrite decide_False; [done|]. intros [H _]. by apply elem_of_nil in H.
  - rewrite IH. clear IH.
    destruct (decide (s ∈ batch ∧ is_Some (queue_of h s hook))) as [[Hin Hq]|Hn].
    { rewrite decide_True; [done|]. split; [by right | done]. }
    destruct (h !! s') as [sess|] eqn:Hs'.
    + rewrite group_session_lookup.
      destruct (models.PreCommitEvents sess !! hook) as [data|] eqn:Hd.
      * destruct (decide (s = s')) as [->|Hne].
        -- cbn [mbind option_bind]. rewrite lookup_insert_eq.
           assert (queue_of h s' hook = Some data) as Hq.
           { unfold queue_of. rewrite Hs'. done. }
           rewrite decide_True; [done|].
           split; [by left | by rewrite Hq].
        -- cbn [mbind option_bind]. rewrite lookup_insert_ne by done.
           rewrite decide_False.
           ++ by destruct (g0 !! hook).
           ++ intros [Hin Hq]. apply Hn. split; [|done].
              apply elem_of_cons in Hin as [?|?]; done.
      * rewrite decide_False; [done|]. intros [Hin Hq].
        apply elem_of_cons in Hin as [->|Hin].
        -- unfold queue_of in Hq. rewrite Hs' in Hq. cbn in Hq.
           rewrite Hd in Hq. by destruct Hq.
        -- destruct Hn. done.
    + rewrite decide_False; [done|]. intros [Hin Hq].
      apply elem_of_cons in Hin as [->|Hin].
      * unfold queue_of in Hq. rewrite Hs' in Hq. by destruct Hq.
      * destruct Hn. done.
Qed.

Lemma Grouping_is_Some_from h batch g0 hook :
  is_Some (foldl (λ g s, match h !! s with
                 | Some sess =>
                     committer.group_session s (models.PreCommitEvents sess) g
                 | None => g
                 end) g0 batch !! hook) ↔
  is_Some (g0 !! hook) ∨ ∃ s, s ∈ batch ∧ is_Some (queue_of h s hook).
Proof.
  revert g0. induction batch as [|s' batch IH]; intros g0; simpl.
  - split; [by left|]. intros [?|(s & Hin & _)]; [done|].
    by apply elem_of_nil in Hin.
  - rewrite IH. clear IH. split.
    + intros [Hg|(s & Hin & Hq)].
      * destruct (h !! s') as [sess|] eqn:Hs'; [|by left].
        rewrite group_session_lookup in Hg.
        destruct (models.PreCommitEvents sess !! hook) as [data|] eqn:Hd;
          [|by left].
        right. exists s'. split; [by left|].
        unfold queue_of. rewrite Hs'. simpl. by rewrite Hd.
      * right. exists s. split; [by right | done].
    + intros [Hg|(s & Hin & Hq)].
      * left. destruct (h !! s') as [sess|]; [|done].
        rewrite group_session_lookup.
        by destruct (models.PreCommitEvents sess !! hook).
      * apply elem_of_cons in Hin as [->|Hin]; [|by right; exists s].
        left. unfold queue_of in Hq.
        destruct (h !! s') as [sess|]; [|by destruct Hq].
        rewrite group_session_lookup. simpl in Hq.
        destruct (models.PreCommitEvents sess !! hook); [done | by destruct Hq].
Qed.

(** The grouping holds, under a hook, exactly what each session of the
    batch queued under it. *)
Lemma Grouping_lookup h batch hook data :
  committer.Grouping h batch !! hook = Some data →
  (∀ s, data !! s = if decide (s ∈ batch) then queue_of h s hook else None) ∧
  ∃ s, s ∈ batch ∧ is_Some (queue_of h s hook).
Proof.
  intros Hg. split.
  - intros s. pose proof (Grouping_from h batch ∅ hook s) as Hs.
    fold (committer.Grouping h batch) in Hs. rewrite Hg, lookup_empty in Hs.
    cbn [mbind option_bind] in Hs. rewrite Hs.
    destruct (decide (s ∈ batch)) as [Hin|Hnin].
    + destruct (queue_of h s hook) as [q|] eqn:E.
      * rewrite decide_True; [done|]. by split.
      * by case_decide.
    + rewrite decide_False; [done|]. by intros [? _].
  - pose proof (proj1 (Grouping_is_Some_from h batch ∅ hook)) as Hs.
    fold (committer.Grouping h batch) in Hs. rewrite Hg, lookup_empty in Hs.
    destruct Hs as [Hs|Hs]; [done| |done]. by destruct Hs.
Qed.

Lemma Grouping_is_Some h batch hook :
  is_Some (committer.Grouping h batch !! hook) ↔
  ∃ s, s ∈ batch ∧ is_Some (queue_of h s hook).
Proof.
  unfold committer.Grouping. rewrite Grouping_is_Some_from, lookup_empty.
  split; [|by right]. intros [Hs|Hs]; [by destruct Hs | done].
Qed.

(** ** The commit loop and [ProcessBatch] *)

Section CommitterFacts.
Context {DB : Type}.
Variable registry : gmap string (@committer.Handler DB).
Variable strategy : models.Hook → @committer.HookApply DB.
Variable acquire : DB → error.

(** A loop that returns nil has applied the whole plan. *)
Lemma apply_hooks_ok h plan tx invoked tx' invoked' :
  committer.apply_hooks strategy h plan tx invoked = (None, tx', invoked') →
  invoked' = invoked ++ plan ∧ committer.all_applied strategy h plan tx tx'.
Proof.
  revert tx invoked. induction plan as [|[hook data] plan IH];
    intros tx invoked; simpl.
  - intros [= <- <-]. split; [by rewrite app_nil_r | constructor].
  - destruct (strategy hook h data tx) as [[e|] tx1] eqn:Hs; [done|].
    intros [-> Hall]%IH. split; [by rewrite <-app_assoc|].
    by econstructor.
Qed.

(** Whatever the loop returns, it has made the calls of a prefix of the
    plan, each once and in order. *)
Lemma apply_hooks_invoked h plan tx invoked :
  ∃ k, (committer.apply_hooks strategy h plan tx invoked).2 =
       invoked ++ take k plan.
Proof.
  revert tx invoked. induction plan as [|[hook data] plan IH];
    intros tx invoked; simpl.
  - exists 0. by rewrite app_nil_r.
  - destruct (strategy hook h data tx) as [[e|] tx1] eqn:Hs.
    + exists 1. done.
    + destruct (IH tx1 (invoked ++ [(hook, data)])) as [k Hk].
      exists (S k). rewrite Hk. by rewrite <-app_assoc.
Qed.

(** The hook invocations of a batch are a prefix of the entries of the
    grouping of its sessions, and all of them when the batch succeeds. *)
Lemma ProcessBatch_invoked batch db h :
  let r := committer.ProcessBatch registry strategy acquire batch db h in
  (∃ k, committer.batch_invoked r =
        take k (map_to_list
                  (committer.Grouping (committer.batch_sessions r) batch.*1))) ∧
  (committer.batch_error r = None →
   committer.batch_invoked r =
     map_to_list (committer.Grouping (committer.batch_sessions r) batch.*1)).
Proof.
  unfold committer.ProcessBatch.
  destruct (acquire db) as [e|]; simpl.
  { split; [by exists 0 | done]. }
  destruct (committer.Dispatching registry batch (db, h))
    as [[e|] [tx h']]; simpl.
  { split; [by exists 0 | done]. }
  pose proof (apply_hooks_invoked h'
    (map_to_list (committer.Grouping h' batch.*1)) tx []) as [k Hk].
  destruct (committer.apply_hooks strategy h' _ tx [])
    as [[[e|] tx'] invoked] eqn:Hrun; simpl in *.
  - split; [by exists k | done].
  - split; [by exists k|]. intros _.
    by apply apply_hooks_ok in Hrun as [-> _].
Qed.

Lemma ProcessBatch_invoked_elem batch db h hook data :
  let r := committer.ProcessBatch registry strategy acquire batch db h in
  (hook, data) ∈ committer.batch_invoked r →
  committer.Grouping (committer.batch_sessions r) batch.*1 !! hook = Some data.
Proof.
  intros r Hin. destruct (ProcessBatch_invoked batch db h) as [[k Hk] _].
  fold r in Hk. rewrite Hk in Hin.
  apply subseteq_take in Hin. by apply elem_of_map_to_list in Hin.
Qed.

End CommitterFacts.

(** ** The calls the commit loop makes *)

Lemma AddPreCommitEvent_nonempty hook data s :
  map_Forall (λ _ (d : list value), d ≠ []) (models.preCommits s) →
  map_Forall (λ _ (d : list value), d ≠ [])
    (models.preCommits (models.AddPreCommitEvent hook data s)).
Proof.
  intros Hs hook' d. rewrite AddPreCommitEvent_lookup.
  case_decide as Hh.
  - intros [= <-]. by destruct (default [] (models.preCommits s !! hook)).
  - apply Hs.
Qed.

Lemma after_calls_nonempty calls id contact uuid :
  map_Forall (λ _ (d : list value), d ≠ [])
    (models.preCommits
       (committer.after_calls calls (models.NewSession id contact uuid))).
Proof.
  induction calls as [|c calls IH] using rev_ind.
  - intros hook d. simpl. by rewrite lookup_empty.
  - unfold committer.after_calls in *. rewrite foldl_app. cbn [foldl].
    by apply AddPreCommitEvent_nonempty.
Qed.

Section CallsFacts.
Context {DB : Type}.
Variable registry : gmap string (@committer.Handler DB).
Variable strategy : models.Hook → @committer.HookApply DB.
Variable acquire : DB → error.

(** The record the loop keeps is the list of the calls it made. *)
Lemma apply_hooks_calls h plan tx invoked err tx' invoked' :
  committer.apply_hooks strategy h plan tx invoked = (err, tx', invoked') →
  ∃ calls, invoked' = invoked ++ calls ∧
           calls_made strategy h calls tx err tx'.
Proof.
  revert tx invoked. induction plan as [|[hook data] plan IH];
    intros tx invoked; simpl.
  - intros [= <- <- <-]. exists []. split; [by rewrite app_nil_r | constructor].
  - destruct (strategy hook h data tx) as [[e|] tx1] eqn:Hs.
    + intros [= <- <- <-]. exists [(hook, data)].
      split; [done | by constructor].
    + intros (calls & -> & Hcalls)%IH. exists ((hook, data) :: calls).
      split; [by rewrite <-app_assoc | by econstructor].
Qed.

(** The hook invocations a batch records are the calls [ProcessBatch]
    made, from the transaction dispatch left; its error is theirs, and
    what it commits is what they left. *)
Lemma ProcessBatch_calls batch db h :
  let r := committer.ProcessBatch registry strategy acquire batch db h in
  (∃ tx err tx',
     committer.Dispatching registry batch (db, h) =
       (None, (tx, committer.batch_sessions r)) ∧
     calls_made strategy (committer.batch_sessions r)
       (committer.batch_invoked r) tx err tx' ∧
     committer.batch_error r = err ∧
     (err = None → committer.batch_db r = tx')) ∨
  (committer.batch_invoked r = [] ∧ committer.batch_error r ≠ None).
Proof.
  unfold committer.ProcessBatch.
  destruct (acquire db) as [e|]; simpl; [by right|].
  destruct (committer.Dispatching registry batch (db, h))
    as [[e|] [tx h']]; simpl; [by right|].
  destruct (committer.apply_hooks strategy h' _ tx [])
    as [[err tx'] invoked] eqn:Hrun.
  apply apply_hooks_calls in Hrun as (calls & -> & Hcalls). simpl in Hcalls.
  left. exists tx, err, tx'.
  destruct err as [e|]; simpl; by repeat split.
Qed.

End CallsFacts.

(** ** The first offending entry of the loop of [Apply] *)



(** * The properties of the specification *)

(** ** The batch committer *)

Section Committer.
Context {DB : Type}.
Variable registry : gmap string (@committer.Handler DB).
Variable strategy : models.Hook → @committer.HookApply DB.
Variable acquire : DB → error.

(** C1. A batch is atomic.  Either [ProcessBatch] returns nil, and then
    dispatch succeeded, every hook of the grouping was applied, each
    returning nil, and the committed database is the transaction with the
    effects of them all; or it returns an error, and then the database is
    as it was before the batch. *)
Theorem ProcessBatch_atomic (batch : list (ptr * list committer.Event))
    (db : DB) (h : gmap ptr models.Session) :
  let r := committer.ProcessBatch registry strategy acquire batch db h in
  (committer.batch_error r = None ∧
   ∃ tx,
     committer.Dispatching registry batch (db, h) =
       (None, (tx, committer.batch_sessions r)) ∧
     committer.batch_invoked r =
       map_to_list
         (committer.Grouping (committer.batch_sessions r) batch.*1) ∧
     committer.all_applied strategy (committer.batch_sessions r)
       (committer.batch_invoked r) tx (committer.batch_db r)) ∨
  (committer.batch_error r ≠ None ∧ committer.batch_db r = db).
Proof.
  unfold committer.ProcessBatch.
  destruct (acquire db) as [e|]; simpl; [by right|].
  destruct (committer.Dispatching registry batch (db, h))
    as [[e|] [tx h']]; simpl; [by right|].
  destruct (committer.apply_hooks strategy h' _ tx [])
    as [[[e|] tx'] invoked] eqn:Hrun; simpl; [by right|].
  left. split; [done|]. exists tx.
  apply apply_hooks_ok in Hrun as [-> Hall]. by repeat split.
Qed.

(** C2 (as amended).  The hook invocations of a batch are the calls of
    the hooks' [Apply] that [ProcessBatch] made, one after the other from
    the transaction dispatch left.  In every batch a hook is called at
    most once, each call gets the data of all the sessions of the batch
    that hold a queue for that hook and of no other session, and only
    hooks some session of the batch holds a queue for are called: when no
    session holds an empty queue, as [AddPreCommitEvent] ensures, only
    hooks with at least one queued event.  When [ProcessBatch] returns
    nil, every hook some session of the batch holds a queue for is
    called: exactly once. *)
Theorem hooks_invoked_once (batch : list (ptr * list committer.Event))
    (db : DB) (h : gmap ptr models.Session) :
  let r := committer.ProcessBatch registry strategy acquire batch db h in
  ((∃ tx err tx',
      committer.Dispatching registry batch (db, h) =
        (None, (tx, committer.batch_sessions r)) ∧
      calls_made strategy (committer.batch_sessions r)
        (committer.batch_invoked r) tx err tx' ∧
      committer.batch_error r = err ∧
      (err = None → committer.batch_db r = tx')) ∨
   (committer.batch_invoked r = [] ∧ committer.batch_error r ≠ None)) ∧
  NoDup (committer.batch_invoked r).*1 ∧
  (∀ hook data, (hook, data) ∈ committer.batch_invoked r →
     (∀ s, data !! s =
           if decide (s ∈ batch.*1)
           then queue_of (committer.batch_sessions r) s hook
           else None) ∧
     ∃ s, s ∈ batch.*1 ∧
          is_Some (queue_of (committer.batch_sessions r) s hook)) ∧
  (queues_nonempty (committer.batch_sessions r) →
   ∀ hook data, (hook, data) ∈ committer.batch_invoked r →
     ∃ s queue, s ∈ batch.*1 ∧
       queue_of (committer.batch_sessions r) s hook = Some queue ∧
       data !! s = Some queue ∧
       queue ≠ []) ∧
  (committer.batch_error r = None →
   ∀ hook s, s ∈ batch.*1 →
     is_Some (queue_of (committer.batch_sessions r) s hook) →
     ∃ data, (hook, data) ∈ committer.batch_invoked r).
Proof.
  intros r.
  destruct (ProcessBatch_invoked registry strategy acquire batch db h)
    as [[k Hk] Hok].
  fold r in Hk, Hok.
  assert (∀ hook data, (hook, data) ∈ committer.batch_invoked r →
     (∀ s, data !! s =
           if decide (s ∈ batch.*1)
           then queue_of (committer.batch_sessions r) s hook
           else None) ∧
     ∃ s, s ∈ batch.*1 ∧
          is_Some (queue_of (committer.batch_sessions r) s hook)) as Hdata.
  { intros hook data Hin.
    apply (ProcessBatch_invoked_elem registry strategy acquire) in Hin.
    by apply Grouping_lookup. }
  split; [apply ProcessBatch_calls|]. split; [|split; [done|split]].
  - rewrite Hk, fmap_take.
    eapply sublist_NoDup; [|apply sublist_take]. apply NoDup_fst_map_to_list.
  - intros Hne hook data Hin.
    destruct (Hdata hook data Hin) as [Hlook (s & Hs & [queue Hq])].
    exists s, queue. split; [done|]. split; [done|]. split.
    + by rewrite Hlook, decide_True.
    + unfold queue_of in Hq.
      destruct (committer.batch_sessions r !! s) as [sess|] eqn:Hsess;
        [|done].
      by eapply (Hne s sess Hsess hook).
  - intros Herr hook s Hs Hq. rewrite (Hok Herr).
    destruct (proj2 (Grouping_is_Some (committer.batch_sessions r) batch.*1 hook))
      as [data Hdata']; [by exists s|].
    exists data. by apply elem_of_map_to_list.
Qed.

(** C3. Order is preserved per session and hook.  Take a session of the
    batch that was created with nothing queued and received the
    [AddPreCommitEvent] calls [calls], at least one of them under [hook].
    The hook invocations of the batch are the calls of the hooks' [Apply]
    that [ProcessBatch] made; the grouping holds for the session, under
    [hook], the data of its calls in submission order; every call of
    [hook] is handed exactly that sequence for the session; and when
    [ProcessBatch] returns nil there is such a call. *)
Theorem queued_order_preserved (batch : list (ptr * list committer.Event))
    (db : DB) (h : gmap ptr models.Session) (s : ptr) (id contact : Z)
    (uuid : string) (calls : list (models.Hook * value)) (hook : models.Hook) :
  let r := committer.ProcessBatch registry strategy acquire batch db h in
  s ∈ batch.*1 →
  committer.batch_sessions r !! s =
    Some (committer.after_calls calls (models.NewSession id contact uuid)) →
  committer.queued_under hook calls ≠ [] →
  ((∃ tx err tx',
      committer.Dispatching registry batch (db, h) =
        (None, (tx, committer.batch_sessions r)) ∧
      calls_made strategy (committer.batch_sessions r)
        (committer.batch_invoked r) tx err tx' ∧
      committer.batch_error r = err ∧
      (err = None → committer.batch_db r = tx')) ∨
   (committer.batch_invoked r = [] ∧ committer.batch_error r ≠ None)) ∧
  (∃ data,
     committer.Grouping (committer.batch_sessions r) batch.*1 !! hook =
       Some data ∧
     data !! s = Some (committer.queued_under hook calls)) ∧
  (∀ data, (hook, data) ∈ committer.batch_invoked r →
     data !! s = Some (committer.queued_under hook calls)) ∧
  (committer.batch_error r = None →
   ∃ data, (hook, data) ∈ committer.batch_invoked r ∧
           data !! s = Some (committer.queued_under hook calls)).
Proof.
  intros r Hs Hsess Hcalls.
  assert (queue_of (committer.batch_sessions r) s hook =
          Some (committer.queued_under hook calls)) as Hq.
  { unfold queue_of. rewrite Hsess. cbn [mbind option_bind].
    unfold models.PreCommitEvents. rewrite after_calls_lookup.
    by destruct (committer.queued_under hook calls). }
  assert (∀ data,
    committer.Grouping (committer.batch_sessions r) batch.*1 !! hook =
      Some data → data !! s = Some (committer.queued_under hook calls)) as Hg.
  { intros data [Hdata _]%Grouping_lookup.
    by rewrite Hdata, decide_True. }
  destruct (proj2 (Grouping_is_Some (committer.batch_sessions r) batch.*1 hook))
    as [data Hdata]; [exists s; by rewrite Hq|].
  split; [apply ProcessBatch_calls|].
  split; [exists data; eauto|]. split.
  - intros data' Hin. apply Hg.
    by apply (ProcessBatch_invoked_elem registry strategy acquire).
  - intros Herr. exists data. split; [|eauto].
    destruct (ProcessBatch_invoked registry strategy acquire batch db h)
      as [_ Hok].
    fold r in Hok. rewrite (Hok Herr). by apply elem_of_map_to_list.
Qed.

End Committer.

(** ** The commit hook [CommitContactNameChanges.Apply] *)

Section Apply.
Context {Tx Pool : Type}.
Variable BulkSQL : handlers.BulkSQLCall → Tx → outcome error * Tx.

(** C4. Last write wins: when every session of the map has a valid pointer
    and a sequence ending in a name-change event, [Apply] hands [BulkSQL]
    one row per session, in the order the map was visited, and the row of
    a session pairs its contact id (converted to [int64]) with the [Name]
    of the last event of its sequence.  With two events [a] then [b] the
    row carries the name of [b] and there is no row for [a]; and when no
    other session of the map is for the same contact, the statement run on
    these rows leaves that contact with the last event's name. *)
Theorem Apply_last_write_wins (w : models.World Tx Pool)
    (sessions : gmap ptr (list value)) (entries : list (ptr * list value)) :
  entries ≡ₚ map_to_list sessions →
  map_Forall (well_formed (models.w_sessions w)) sessions →
  ∃ updates,
    handlers.Apply_in_order BulkSQL entries w =
      handlers.call_BulkSQL BulkSQL "updating contact name"
        handlers.updateContactNameSQL updates w ∧
    length updates = length entries ∧
    (∀ i s e, entries !! i = Some (s, e) →
       ∃ sess ev,
         models.w_sessions w !! s = Some sess ∧
         last e = Some (ContactNameChangedEvent_ptr (Some ev)) ∧
         updates !! i =
           Some {| handlers.ContactID := int64 (models.ContactID sess);
                   handlers.Name := events.Name ev |}) ∧
    (∀ i s a b,
       entries !! i = Some (s, [ContactNameChangedEvent_ptr (Some a);
                                ContactNameChangedEvent_ptr (Some b)]) →
       ∃ sess,
         models.w_sessions w !! s = Some sess ∧
         updates !! i =
           Some {| handlers.ContactID := int64 (models.ContactID sess);
                   handlers.Name := events.Name b |}) ∧
    (∀ (Time Other : Type) (now : Time) choose
       (c : postgres.contact Time Other) s e sess ev,
       sessions !! s = Some e →
       models.w_sessions w !! s = Some sess →
       last e = Some (ContactNameChangedEvent_ptr (Some ev)) →
       postgres.cast_int (int64 (models.ContactID sess)) =
         Some (postgres.row_id c) →
       (∀ s' sess', is_Some (sessions !! s') →
          models.w_sessions w !! s' = Some sess' →
          int64 (models.ContactID sess') = int64 (models.ContactID sess) →
          s' = s) →
       postgres.row_name (postgres.update_row now choose updates c) =
         events.Name ev).
Proof.
  intros Hp Hwf.
  destruct (Apply_rows _ _ _ Hp Hwf) as (updates & Hrun & Hrows).
  assert (∀ i s e, entries !! i = Some (s, e) →
       ∃ sess ev,
         models.w_sessions w !! s = Some sess ∧
         last e = Some (ContactNameChangedEvent_ptr (Some ev)) ∧
         updates !! i =
           Some {| handlers.ContactID := int64 (models.ContactID sess);
                   handlers.Name := events.Name ev |}) as Hrow.
  { intros i s e Hi.
    destruct (Forall2_lookup_l _ _ _ _ _ Hrows Hi) as (u & Hu & Hlast).
    apply lastNameUpdate_Returns in Hlast as (sess & ev & _ & Hh & Hl & ->).
    by exists sess, ev. }
  exists updates. split; [by apply Apply_in_order_Returns|].
  split; [symmetry; by eapply Forall2_length|].
  split; [done|]. split.
  { intros i s a b Hi.
    destruct (Hrow _ _ _ Hi) as (sess & ev & Hh & [= <-] & Hu). eauto. }
  intros Time Other now choose c s e sess ev Hs Hh Hl Hc Huniq.
  assert ((s, e) ∈ entries) as Hin.
  { rewrite Hp. by apply elem_of_map_to_list. }
  apply list_elem_of_lookup_1 in Hin as [i Hi].
  destruct (Hrow _ _ _ Hi) as (sess0 & ev0 & Hh0 & Hl0 & Hu).
  assert (sess0 = sess) as -> by congruence.
  assert (ev0 = ev) as -> by congruence.
  apply list_elem_of_lookup_2 in Hu.
  refine (proj1 (update_row_name now choose updates c _ Hu Hc _)).
  simpl. intros u' Hu' Hid.
  apply list_elem_of_lookup_1 in Hu' as [j Hj].
  destruct (Forall2_lookup_r _ _ _ _ _ Hrows Hj) as ([s' e'] & Hj' & Hlast).
  apply lastNameUpdate_Returns in Hlast as (sess' & ev' & _ & Hh' & Hl' & ->).
  simpl in *.
  assert (sessions !! s' = Some e') as Hs'.
  { apply elem_of_map_to_list. rewrite <-Hp. by eapply list_elem_of_lookup_2. }
  assert (s' = s) as -> by (eapply Huniq; eauto).
  congruence.
Qed.

(** C5 (as amended). One bulk statement.  For every non-empty map whose
    sessions all have a valid pointer and a sequence ending in a non-nil
    name-change event, [Apply] makes exactly one [BulkSQL] call, with the
    statement [updateContactNameSQL] and one row per session, and returns
    what that call returns; on a transaction that records the calls made
    on it, exactly this one call is added.  For every other non-empty map
    [Apply] panics, with the world as it was: no call is made. *)
Theorem Apply_single_bulk_statement (w : models.World Tx Pool)
    (sessions : gmap ptr (list value)) (entries : list (ptr * list value)) :
  entries ≡ₚ map_to_list sessions →
  sessions ≠ ∅ →
  (map_Forall (well_formed (models.w_sessions w)) sessions →
   ∃ updates,
     length updates = size sessions ∧
     Forall2 (λ se u,
                handlers.lastNameUpdate (models.w_sessions w) se.1 se.2 =
                Returns u) entries updates ∧
     handlers.Apply_in_order BulkSQL entries w =
       handlers.call_BulkSQL BulkSQL "updating contact name"
         handlers.updateContactNameSQL updates w ∧
     ∀ calls : list handlers.BulkSQLCall,
       models.w_tx
         (handlers.Apply_in_order handlers.recording entries
            {| models.w_sessions := models.w_sessions w;
               models.w_tx := calls;
               models.w_rp := models.w_rp w;
               models.w_log := models.w_log w |}).2 =
       calls ++ [{| handlers.bulk_label := "updating contact name";
                    handlers.bulk_sql := handlers.updateContactNameSQL;
                    handlers.bulk_rows := updates |}]) ∧
  (¬ map_Forall (well_formed (models.w_sessions w)) sessions →
   (∃ p, handlers.Apply_in_order BulkSQL entries w = (Panics p, w)) ∧
   ∀ calls : list handlers.BulkSQLCall,
     models.w_tx
       (handlers.Apply_in_order handlers.recording entries
          {| models.w_sessions := models.w_sessions w;
             models.w_tx := calls;
             models.w_rp := models.w_rp w;
             models.w_log := models.w_log w |}).2 = calls).
Proof.
  intros Hp _. split.
  - intros Hwf.
    destruct (Apply_rows _ _ _ Hp Hwf) as (updates & Hrun & Hrows).
    exists updates. split.
    { rewrite <-(entries_length _ _ Hp). symmetry. by eapply Forall2_length. }
    split; [done|]. split; [by apply Apply_in_order_Returns|].
    intros calls. by rewrite (Apply_in_order_Returns _ _ _ updates).
  - intros Hwf.
    assert (panicked (handlers.Apply_range (models.w_sessions w) entries []))
      as Hpanic.
    { destruct (handlers.Apply_range (models.w_sessions w) entries [])
        as [us|p] eqn:Hrun; [|done].
      destruct Hwf. apply (entries_Forall _ _ _ Hp).
      apply (Apply_range_total _ entries []). eauto. }
    split.
    + destruct (Apply_in_order_Panics BulkSQL w entries Hpanic)
        as (p & _ & Ha). eauto.
    + intros calls.
      destruct (Apply_in_order_Panics handlers.recording
                  {| models.w_sessions := models.w_sessions w;
                     models.w_tx := calls;
                     models.w_rp := models.w_rp w;
                     models.w_log := models.w_log w |} entries Hpanic)
        as (p & _ & ->). done.
Qed.

(** C7. The reduction is deterministic: for a map whose sessions all have
    a valid pointer and a sequence ending in a name-change event, any two
    orders of visiting the map give the same rows up to their order, and
    the rows are those of the sessions of the map: they depend on the map
    (and the sessions' contact ids) alone. *)
Theorem Apply_reduction_deterministic (h : gmap ptr models.Session)
    (sessions : gmap ptr (list value)) (es1 es2 : list (ptr * list value)) :
  es1 ≡ₚ map_to_list sessions →
  es2 ≡ₚ map_to_list sessions →
  map_Forall (well_formed h) sessions →
  ∃ u1 u2,
    handlers.Apply_range h es1 [] = Returns u1 ∧
    handlers.Apply_range h es2 [] = Returns u2 ∧
    u1 ≡ₚ u2 ∧
    ∀ u, u ∈ u1 ↔
         ∃ s e, sessions !! s = Some e ∧
                handlers.lastNameUpdate h s e = Returns u.
Proof.
  intros Hp1 Hp2 Hwf.
  destruct (Apply_rows _ _ _ Hp1 Hwf) as (u1 & Hrun1 & Hrows1).
  destruct (Apply_rows _ _ _ Hp2 Hwf) as (u2 & Hrun2 & Hrows2).
  exists u1, u2. split; [done|]. split; [done|].
  apply rows_omap in Hrows1, Hrows2. split.
  - rewrite Hrows1, Hrows2, Hp1, Hp2. done.
  - intros u. rewrite Hrows1, list_elem_of_omap. split.
    + intros ([s e] & Hin & Hu). exists s, e.
      rewrite Hp1 in Hin. apply elem_of_map_to_list in Hin.
      split; [done|]. simpl in Hu.
      by destruct (handlers.lastNameUpdate h s e); simplify_eq.
    + intros (s & e & Hs & Hu). exists (s, e). split.
      * rewrite Hp1. by apply elem_of_map_to_list.
      * simpl. by rewrite Hu.
Qed.


(** C9 (as amended). The type assertions are unchecked, and [Apply] makes
    one per session, on the last datum only.  With a valid session
    pointer, [applyContactNameChanged] returns exactly when its event is a
    non-nil [*events.ContactNameChangedEvent], and an event of another
    dynamic type makes it panic on the assertion, leaving the world as it
    was.  With valid session pointers, the loop of [Apply] completes
    exactly when every session's sequence ends with a non-nil
    [*events.ContactNameChangedEvent]; a last datum of another dynamic
    type makes [Apply] panic, with no error returned and the world as it
    was. *)
Theorem type_assertions_unchecked (w : models.World Tx Pool) :
  (∀ session e,
     valid_session (models.w_sessions w) session →
     ((∃ r, (handlers.applyContactNameChanged session e w).1 = Returns r) ↔
      ∃ ev, e = ContactNameChangedEvent_ptr (Some ev)) ∧
     (is_ContactNameChangedEvent e = false →
      handlers.applyContactNameChanged session e w =
        (Panics InterfaceConversion, w))) ∧
  (∀ (sessions : gmap ptr (list value)) entries,
     entries ≡ₚ map_to_list sessions →
     map_Forall (λ s _, valid_session (models.w_sessions w) s) sessions →
     ((∃ updates, handlers.Apply_range (models.w_sessions w) entries [] =
                    Returns updates) ↔
      map_Forall (λ _ e, is_Some (final_event e)) sessions) ∧
     (∀ s e x,
        sessions !! s = Some e → last e = Some x →
        is_ContactNameChangedEvent x = false →
        ∃ p, handlers.Apply_in_order BulkSQL entries w = (Panics p, w))).
Proof.
  split.
  - intros session e [sess Hd]%deref_valid.
    rewrite applyContactNameChanged_unfold, Hd. split.
    + destruct e as [|[ev|]|]; simpl; split;
        try (by intros [? ?]); try (by intros [? [=]]); eauto.
    + by destruct e.
  - intros sessions entries Hp Hvalid. split.
    + rewrite <-Apply_range_total, <-(entries_Forall _ _ _ Hp).
      unfold well_formed. split.
      * intros Hwf s e Hs. by destruct (Hwf s e Hs).
      * intros Hev s e Hs. split; [by eapply Hvalid | by eapply Hev].
    + intros s e x Hs Hl Hx.
      assert (panicked (handlers.Apply_range (models.w_sessions w) entries []))
        as Hpanic.
      { apply Apply_range_Panics, Exists_exists. exists (s, e). split.
        - rewrite Hp. by apply elem_of_map_to_list.
        - simpl. rewrite lastNameUpdate_unfold, Hl. by destruct x. }
      destruct (Apply_in_order_Panics BulkSQL w entries Hpanic) as (p & _ & Ha).
      eauto.
Qed.

End Apply.

(** ** The handler [applyContactNameChanged] *)

(** C6. The handler defers.  On a name-change event and a valid session
    pointer, [applyContactNameChanged] returns nil; the transaction and
    the cache pool are as they were; of the sessions only the one it was
    given changes, and of that one only the queue of the hook
    [commitContactNameChanges], which gets the event appended.  The one
    other thing it does is emit its debug log record. *)
Theorem applyContactNameChanged_defers {Tx Pool} (w : models.World Tx Pool)
    (session : ptr) (sess : models.Session)
    (ev : events.ContactNameChangedEvent) :
  session ≠ nil →
  models.w_sessions w !! session = Some sess →
  ∃ w' sess',
    handlers.applyContactNameChanged session
      (ContactNameChangedEvent_ptr (Some ev)) w = (Returns None, w') ∧
    models.w_tx w' = models.w_tx w ∧
    models.w_rp w' = models.w_rp w ∧
    (∀ s, s ≠ session → models.w_sessions w' !! s = models.w_sessions w !! s) ∧
    models.w_sessions w' !! session = Some sess' ∧
    sess' = models.AddPreCommitEvent handlers.commitContactNameChanges
              (ContactNameChangedEvent_ptr (Some ev)) sess ∧
    models.ID sess' = models.ID sess ∧
    models.ContactID sess' = models.ContactID sess ∧
    models.ContactUUID sess' = models.ContactUUID sess ∧
    models.preCommits sess' !! handlers.commitContactNameChanges =
      Some (default [] (models.preCommits sess !!
                          handlers.commitContactNameChanges) ++
            [ContactNameChangedEvent_ptr (Some ev)]) ∧
    (∀ hook, hook ≠ handlers.commitContactNameChanges →
       models.preCommits sess' !! hook = models.preCommits sess !! hook) ∧
    models.w_log w' = models.w_log w ++
      [{| log_level := "debug";
          log_fields := [("contact_uuid", LStr (models.ContactUUID sess));
                         ("session_id", LInt (models.ID sess));
                         ("name", LStr (events.Name ev))];
          log_message := "changing contact name" |}].
Proof.
  intros Hs Hh.
  rewrite applyContactNameChanged_unfold. simpl.
  rewrite (proj2 (deref_Returns _ _ sess)) by done.
  eexists _, _. split; [done|]. simpl.
  split; [done|]. split; [done|].
  split; [by intros s Hne; rewrite lookup_insert_ne|].
  split; [by rewrite lookup_insert_eq|].
  split; [done|]. split; [done|]. split; [done|]. split; [done|]. simpl.
  split; [by rewrite lookup_insert_eq|].
  split; [by intros hook Hne; rewrite lookup_insert_ne|]. done.
Qed.

(** ** The statement [updateContactNameSQL] *)

(** C10. The statement touches [name] and [modified_on] only, and only in
    the rows whose id is among the update pairs.  The table keeps its
    rows; every row keeps its id and its other columns; a row whose id is
    not among the pairs is unchanged; when the statement succeeds, a row
    whose id is among the pairs gets the name of a pair with that id and
    [modified_on] set to the current time; when it fails, nothing is
    changed. *)
Theorem updateContactNameSQL_frame {Time Other : Type} (now : Time)
    (choose : postgres.contact Time Other → nat)
    (rows : list handlers.nameUpdate)
    (table : list (postgres.contact Time Other)) :
  ∃ err table',
    postgres.exec_updateContactNameSQL now choose rows table = (err, table') ∧
    length table' = length table ∧
    (err ≠ None → table' = table) ∧
    ∀ i c, table !! i = Some c →
      ∃ c', table' !! i = Some c' ∧
        postgres.row_id c' = postgres.row_id c ∧
        postgres.row_other c' = postgres.row_other c ∧
        (postgres.row_id c ∉ handlers.ContactID <$> rows → c' = c) ∧
        (err = None → postgres.row_id c ∈ handlers.ContactID <$> rows →
           postgres.row_modified_on c' = now ∧
           ∃ u, u ∈ rows ∧ handlers.ContactID u = postgres.row_id c ∧
                postgres.row_name c' = handlers.Name u).
Proof.
  unfold postgres.exec_updateContactNameSQL. case_decide as Hcast.
  - eexists None, _. split; [done|]. split; [by rewrite length_fmap|].
    split; [done|]. intros i c Hi.
    exists (postgres.update_row now choose rows c).
    split; [by rewrite list_lookup_fmap, Hi|].
    split; [apply update_row_id|]. split; [apply update_row_other|]. split.
    + intros Hid.
      destruct (update_row_cases now choose rows c) as [[_ ->]|(u & Hu & _)];
        [done|].
      rewrite (joined_nil _ _ Hid) in Hu. by apply not_elem_of_nil in Hu.
    + intros _ (u & Hid & Hu)%list_elem_of_fmap_1.
      assert (u ∈ postgres.joined c rows) as Hj.
      { apply elem_of_joined. split; [done|].
        rewrite Forall_forall in Hcast. destruct (Hcast u Hu) as [z Hz].
        rewrite Hz. f_equal. apply cast_int_Some in Hz. congruence. }
      destruct (update_row_cases now choose rows c) as [[Hnil _]|(u' & Hu' & ->)].
      * rewrite Hnil in Hj. by apply not_elem_of_nil in Hj.
      * simpl. split; [done|]. exists u'.
        apply elem_of_joined in Hu' as [Hu' Hc'].
        apply cast_int_Some in Hc'. done.
  - eexists (Some _), table. split; [done|]. split; [done|]. split; [done|].
    intros i c Hi. exists c. by repeat split.
Qed.

(** * The properties at concrete inputs *)

(** ** The batch committer *)

(** A batch whose dispatch fails: the database is untouched. *)
Example ProcessBatch_aborts :
  let r := committer.ProcessBatch example.mailroom_registry
             example.mailroom_hooks (λ _, None) example.batch_failing
             example.table example.store in
  committer.batch_error r = Some "no handler for event type unknown" ∧
  committer.batch_db r = example.table.
Proof. vm_compute. done. Qed.

(** The handler and the hook of package [handlers] under the committer:
    of three sessions two change their contact's name, one of them twice;
    after the commit the two contacts carry the final names and the third
    row is untouched. *)
Example name_changes_committed :
  let r := committer.ProcessBatch example.mailroom_registry
             example.mailroom_hooks (λ _, None) example.batch_of_three
             example.table example.store in
  committer.batch_error r = None ∧
  committer.batch_db r =
    [ {| postgres.row_id := 7; postgres.row_name := "Alice";
         postgres.row_modified_on := 5; postgres.row_other := "x" |};
      {| postgres.row_id := 8; postgres.row_name := "Bob";
         postgres.row_modified_on := 5; postgres.row_other := "y" |};
      {| postgres.row_id := 9; postgres.row_name := "old9";
         postgres.row_modified_on := 0; postgres.row_other := "z" |} ] ∧
  (committer.batch_invoked r).*1 = [handlers.commitContactNameChanges].
Proof. vm_compute. done. Qed.

(** A batch whose hook fails: the statement is aborted by the cast of an
    id, the transaction is rolled back and no name has changed. *)
Example ProcessBatch_rolls_back :
  let r := committer.ProcessBatch example.mailroom_registry
             example.mailroom_hooks (λ _, None) example.batch_rolled_back
             example.table example.store in
  committer.batch_error r =
    Some "error applying pre commit hook *handlers.CommitContactNameChanges: integer out of range" ∧
  committer.batch_db r = example.table.
Proof. vm_compute. done. Qed.

(** C2 as stated fails: session 1 queued a name change under the hook and
    then emitted an event without a handler; dispatch aborts the batch and
    the hook, which has a queued event, is not invoked. *)
Lemma hook_not_invoked_when_dispatch_fails :
  let r := committer.ProcessBatch example.mailroom_registry
             example.mailroom_hooks (λ _, None) example.batch_failing
             example.table example.store in
  1%N ∈ example.batch_failing.*1 ∧
  queue_of (committer.batch_sessions r) 1%N handlers.commitContactNameChanges =
    Some [example.A] ∧
  ¬ ∃ data, (handlers.commitContactNameChanges, data) ∈ committer.batch_invoked r.
Proof.
  split; [by left|]. split; [by vm_compute|].
  intros [data Hin]. vm_compute in Hin. by apply elem_of_nil in Hin.
Qed.

(** C2, amended, on a batch that commits: no session holds an empty
    queue, and the hook is called with a non-empty sequence for some
    session of the batch. *)
Lemma hooks_invoked_once_witness :
  let r := committer.ProcessBatch example.mailroom_registry
             example.mailroom_hooks (λ _, None) example.batch
             example.table example.store in
  committer.batch_error r = None ∧
  queues_nonempty (committer.batch_sessions r) ∧
  ∃ data s queue,
    (handlers.commitContactNameChanges, data) ∈ committer.batch_invoked r ∧
    s ∈ example.batch.*1 ∧
    data !! s = Some queue ∧
    queue ≠ [].
Proof.
  intros r.
  assert (committer.batch_error r = None) as Herr by (vm_compute; reflexivity).
  assert (queues_nonempty (committer.batch_sessions r)) as Hne.
  { apply (bool_decide_unpack _). vm_compute. exact I. }
  split; [exact Herr|]. split; [exact Hne|].
  destruct (hooks_invoked_once example.mailroom_registry
              example.mailroom_hooks (λ _, None) example.batch example.table
              example.store) as (_ & _ & _ & Hqueued & Hall).
  destruct (Hall Herr handlers.commitContactNameChanges 1%N) as [data Hin].
  - left.
  - vm_compute. eexists. reflexivity.
  - destruct (Hqueued Hne _ _ Hin) as (s & queue & Hs & _ & Hd & Hq).
    exists data, s, queue. split; [exact Hin|]. split; [exact Hs|].
    split; [exact Hd | exact Hq].
Defined.

(** C3 on the same batch: the recorded invocations are the calls made,
    what they left is what was committed, and the hook receives the two
    events of session 1 in the order they were queued. *)
Lemma queued_order_preserved_witness :
  let r := committer.ProcessBatch example.mailroom_registry
             example.mailroom_hooks (λ _, None) example.batch
             example.table example.store in
  committer.batch_error r = None ∧
  (∃ tx tx',
     calls_made example.mailroom_hooks (committer.batch_sessions r)
       (committer.batch_invoked r) tx None tx' ∧
     committer.batch_db r = tx') ∧
  ∃ data, (handlers.commitContactNameChanges, data) ∈ committer.batch_invoked r ∧
          data !! 1%N = Some [example.A; example.B].
Proof.
  intros r.
  assert (committer.batch_error r = None) as Herr by (vm_compute; reflexivity).
  split; [exact Herr|].
  destruct (queued_order_preserved example.mailroom_registry
              example.mailroom_hooks (λ _, None) example.batch example.table
              example.store 1%N 10 7 "c7"
              [(handlers.commitContactNameChanges, example.A);
               (handlers.commitContactNameChanges, example.B)]
              handlers.commitContactNameChanges) as (Hcalls & _ & _ & Hok).
  - left.
  - vm_compute. reflexivity.
  - vm_compute. discriminate.
  - split; [|exact (Hok Herr)].
    destruct Hcalls as [(tx & err & tx' & _ & Hmade & He & Hdb)|[_ Hfail]].
    + fold r in He. rewrite Herr in He. subst err.
      exists tx, tx'. split; [exact Hmade | exact (Hdb eq_refl)].
    + destruct (Hfail Herr).
Defined.

(** ** The commit hook *)

(** The hook on the two sessions: one call, one row per session, the
    second name of session 1. *)
Example Apply_two_sessions :
  handlers.Apply handlers.recording example.sessions example.world =
  (Returns None,
   {| models.w_sessions := example.store;
      models.w_tx :=
        [{| handlers.bulk_label := "updating contact name";
            handlers.bulk_sql := handlers.updateContactNameSQL;
            handlers.bulk_rows :=
              [{| handlers.ContactID := 8; handlers.Name := "A" |};
               {| handlers.ContactID := 7; handlers.Name := "B" |}] |}];
      models.w_rp := ();
      models.w_log := [] |}).
Proof. vm_compute. reflexivity. Qed.

(** C4 on the two sessions. *)
Lemma Apply_last_write_wins_witness :
  map_Forall (well_formed (models.w_sessions example.world)) example.sessions ∧
  ∃ updates,
    handlers.Apply_in_order handlers.recording
      (map_to_list example.sessions) example.world =
    handlers.call_BulkSQL handlers.recording "updating contact name"
      handlers.updateContactNameSQL updates example.world ∧
    length updates = length (map_to_list example.sessions).
Proof.
  assert (map_Forall (well_formed (models.w_sessions example.world))
            example.sessions) as Hwf.
  { apply (bool_decide_unpack _). vm_compute. exact I. }
  split; [exact Hwf|].
  destruct (Apply_last_write_wins handlers.recording example.world
              example.sessions (map_to_list example.sessions))
    as (updates & Hrun & Hlen & _).
  - reflexivity.
  - exact Hwf.
  - exists updates. split; [exact Hrun | exact Hlen].
Defined.

(** C5 as stated fails: the map is not empty, yet [Apply] panics on the
    empty sequence of session 1 and no [BulkSQL] call is made. *)
Lemma Apply_empty_sequence_no_statement :
  example.sessions_empty ≠ ∅ ∧
  handlers.Apply handlers.recording example.sessions_empty example.world =
    (Panics IndexOutOfRange, example.world) ∧
  ¬ ∃ c, models.w_tx
           (handlers.Apply handlers.recording example.sessions_empty
              example.world).2 = [c].
Proof.
  split; [apply insert_non_empty|]. split; [by vm_compute|].
  intros [c Hc]. vm_compute in Hc. discriminate.
Qed.

(** C5, amended, on the two sessions. *)
Lemma Apply_single_bulk_statement_witness :
  example.sessions ≠ ∅ ∧
  map_Forall (well_formed (models.w_sessions example.world)) example.sessions ∧
  ∃ updates,
    length updates = size example.sessions ∧
    handlers.Apply_in_order handlers.recording
      (map_to_list example.sessions) example.world =
    handlers.call_BulkSQL handlers.recording "updating contact name"
      handlers.updateContactNameSQL updates example.world.
Proof.
  assert (example.sessions ≠ ∅) as Hne by apply insert_non_empty.
  assert (map_Forall (well_formed (models.w_sessions example.world))
            example.sessions) as Hwf.
  { apply (bool_decide_unpack _). vm_compute. exact I. }
  split; [exact Hne|]. split; [exact Hwf|].
  destruct (Apply_single_bulk_statement handlers.recording example.world
              example.sessions (map_to_list example.sessions))
    as [Hone _].
  - reflexivity.
  - exact Hne.
  - destruct (Hone Hwf) as (updates & Hlen & _ & Hrun & _).
    exists updates. split; [exact Hlen | exact Hrun].
Defined.

(** C7 on the two sessions, visited in one order and in the reverse
    order. *)
Lemma Apply_reduction_deterministic_witness :
  ∃ u1 u2,
    handlers.Apply_range example.store (map_to_list example.sessions) [] =
      Returns u1 ∧
    handlers.Apply_range example.store
      (reverse (map_to_list example.sessions)) [] = Returns u2 ∧
    u1 ≡ₚ u2.
Proof.
  destruct (Apply_reduction_deterministic example.store example.sessions
              (map_to_list example.sessions)
              (reverse (map_to_list example.sessions)))
    as (u1 & u2 & H1 & H2 & Hp & _).
  - reflexivity.
  - apply reverse_Permutation.
  - apply (bool_decide_unpack _). vm_compute. exact I.
  - exists u1, u2. split; [exact H1|]. split; [exact H2 | exact Hp].
Defined.



(** C9 as stated fails: the sequence of session 1 holds a datum that is
    not a name-change event, and [Apply] completes all the same, because
    it asserts the type of the last datum only. *)
Lemma Apply_ignores_earlier_data :
  ¬ ((∃ updates,
        handlers.Apply_range example.store
          (map_to_list example.sessions_mixed) [] = Returns updates) ↔
     map_Forall (λ _ e, Forall (λ x, is_ContactNameChangedEvent x = true) e)
       example.sessions_mixed).
Proof.
  intros [Hsafe _].
  assert (Forall (λ x, is_ContactNameChangedEvent x = true)
            [other_dynamic "string"; example.B]) as Hall.
  { apply (Hsafe ltac:(eexists; vm_compute; reflexivity) 1%N).
    vm_compute. reflexivity. }
  apply Forall_cons in Hall as [Hx _]. discriminate.
Qed.

(** C9, amended, on an event of another dynamic type. *)
Lemma type_assertions_unchecked_witness :
  valid_session (models.w_sessions example.world) 1%N ∧
  handlers.applyContactNameChanged 1%N (other_dynamic "string") example.world =
    (Panics InterfaceConversion, example.world).
Proof.
  assert (valid_session (models.w_sessions example.world) 1%N) as Hv.
  { apply (bool_decide_unpack _). vm_compute. exact I. }
  split; [exact Hv|].
  destruct (type_assertions_unchecked handlers.recording example.world)
    as [Hhandler _].
  destruct (Hhandler 1%N (other_dynamic "string") Hv) as [_ Hpanic].
  apply Hpanic. reflexivity.
Defined.

(** ** The handler *)

(** C6 on session 1 and the event named B. *)
Lemma applyContactNameChanged_defers_witness :
  ∃ w', handlers.applyContactNameChanged 1%N example.B example.world =
          (Returns None, w') ∧
        models.w_tx w' = models.w_tx example.world ∧
        models.w_rp w' = models.w_rp example.world.
Proof.
  destruct (applyContactNameChanged_defers example.world 1%N
              (models.NewSession 10 7 "c7") {| events.Name := "B" |})
    as (w' & sess' & Hrun & Htx & Hrp & _).
  - discriminate.
  - vm_compute. reflexivity.
  - exists w'. split; [exact Hrun|]. split; [exact Htx | exact Hrp].
Defined.

(** ** The statement *)

(** The statement on a table of three contacts, with rows for two of
    them. *)
Example statement_on_table :
  postgres.exec_updateContactNameSQL 5 (λ _, 0)
    [{| handlers.ContactID := 8; handlers.Name := "A" |};
     {| handlers.ContactID := 7; handlers.Name := "B" |}] example.table =
  (None,
   [ {| postgres.row_id := 7; postgres.row_name := "B";
        postgres.row_modified_on := 5; postgres.row_other := "x" |};
     {| postgres.row_id := 8; postgres.row_name := "A";
        postgres.row_modified_on := 5; postgres.row_other := "y" |};
     {| postgres.row_id := 9; postgres.row_name := "old9";
        postgres.row_modified_on := 0; postgres.row_other := "z" |} ]).
Proof. vm_compute. reflexivity. Qed.

(** An id that does not fit 32 bits makes the statement fail, and nothing
    is written. *)
Example statement_out_of_range :
  postgres.exec_updateContactNameSQL 5 (λ _, 0)
    [{| handlers.ContactID := 7; handlers.Name := "B" |};
     {| handlers.ContactID := 2 ^ 31; handlers.Name := "C" |}] example.table =
  (Some "integer out of range", example.table).
Proof. vm_compute. reflexivity. Qed.

(** * More on the hook, the handler and the statement *)

(** ** Helper facts *)

Lemma NoDup_fmap_eq {A B} (f : A → B) (l : list A) x y :
  NoDup (f <$> l) → x ∈ l → y ∈ l → f x = f y → x = y.
Proof.
  induction l as [|a l IH]; simpl.
  - by intros _ ?%elem_of_nil.
  - rewrite NoDup_cons. intros [Ha Hl] Hx Hy Hf.
    apply elem_of_cons in Hx as [->|Hx]; apply elem_of_cons in Hy as [->|Hy].
    + done.
    + destruct Ha. rewrite Hf. by apply list_elem_of_fmap_2.
    + destruct Ha. rewrite <-Hf. by apply list_elem_of_fmap_2.
    + by apply IH.
Qed.

Lemma after_calls_ContactID calls s0 :
  models.ContactID (committer.after_calls calls s0) = models.ContactID s0.
Proof.
  revert s0. induction calls as [|c calls IH]; intros s0; [done|].
  unfold committer.after_calls in *. simpl. by rewrite IH.
Qed.

Lemma after_calls_app calls1 calls2 s0 :
  committer.after_calls (calls1 ++ calls2) s0 =
  committer.after_calls calls2 (committer.after_calls calls1 s0).
Proof. unfold committer.after_calls. apply foldl_app. Qed.

Lemma queued_under_all hook (data : list value) :
  committer.queued_under hook ((λ d, (hook, d)) <$> data) = data.
Proof.
  unfold committer.queued_under. induction data as [|d data IH]; [done|].
  simpl. rewrite filter_cons, decide_True by done. simpl. by f_equal.
Qed.

Section StatementFacts.
Context {Time Other : Type}.
Implicit Types (c : postgres.contact Time Other)
  (rows : list handlers.nameUpdate).

Lemma joined_unique c rows u u' :
  NoDup (handlers.ContactID <$> rows) →
  u ∈ postgres.joined c rows → u' ∈ postgres.joined c rows → u = u'.
Proof.
  intros Hnd [Hu Hc]%elem_of_joined [Hu' Hc']%elem_of_joined.
  apply cast_int_Some in Hc, Hc'.
  eapply NoDup_fmap_eq; [done..|]. congruence.
Qed.

Lemma joined_Permutation c rows rows' :
  rows ≡ₚ rows' → postgres.joined c rows ≡ₚ postgres.joined c rows'.
Proof. intros Hp. unfold postgres.joined. by rewrite Hp. Qed.

Lemma joined_row_id c c' rows :
  postgres.row_id c' = postgres.row_id c →
  postgres.joined c' rows = postgres.joined c rows.
Proof. intros Hid. unfold postgres.joined. by rewrite Hid. Qed.

Lemma update_row_Permutation now choose choose' rows rows' c :
  rows ≡ₚ rows' →
  NoDup (handlers.ContactID <$> rows) →
  postgres.update_row now choose rows c =
  postgres.update_row now choose' rows' c.
Proof.
  intros Hp Hnd.
  pose proof (joined_Permutation c _ _ Hp) as Hj.
  destruct (update_row_cases now choose rows c) as [[Hnil ->]|(u & Hu & ->)];
    destruct (update_row_cases now choose' rows' c)
      as [[Hnil' ->]|(u' & Hu' & ->)].
  - done.
  - rewrite <-Hj, Hnil in Hu'. by apply elem_of_nil in Hu'.
  - rewrite Hj, Hnil' in Hu. by apply elem_of_nil in Hu.
  - rewrite <-Hj in Hu'. by rewrite (joined_unique c rows u u').
Qed.

Lemma update_row_idempotent now choose choose' rows c :
  NoDup (handlers.ContactID <$> rows) →
  postgres.update_row now choose' rows (postgres.update_row now choose rows c) =
  postgres.update_row now choose rows c.
Proof.
  intros Hnd.
  set (c1 := postgres.update_row now choose rows c).
  assert (postgres.joined c1 rows = postgres.joined c rows) as Hj
    by apply joined_row_id, update_row_id.
  destruct (update_row_cases now choose' rows c1)
    as [[_ ->]|(u' & Hu' & ->)]; [done|].
  rewrite Hj in Hu'. unfold c1.
  destruct (update_row_cases now choose rows c) as [[Hnil _]|(u & Hu & ->)].
  - rewrite Hnil in Hu'. by apply elem_of_nil in Hu'.
  - by rewrite (joined_unique c rows u' u).
Qed.

(** X4. The statement does not depend on the order of its [VALUES]
    tuples: when the rows have pairwise distinct ids, any permutation of
    them, and any choice the database makes among joined rows, gives the
    same error and the same table. *)
Theorem updateContactNameSQL_order_independent (now : Time)
    (choose choose' : postgres.contact Time Other → nat)
    (rows rows' : list handlers.nameUpdate)
    (table : list (postgres.contact Time Other)) :
  rows ≡ₚ rows' →
  NoDup (handlers.ContactID <$> rows) →
  postgres.exec_updateContactNameSQL now choose rows table =
  postgres.exec_updateContactNameSQL now choose' rows' table.
Proof.
  intros Hp Hnd. unfold postgres.exec_updateContactNameSQL.
  destruct (decide (Forall _ rows)) as [Hc|Hc];
    destruct (decide (Forall _ rows')) as [Hc'|Hc'].
  - f_equal. apply list_fmap_ext. intros i c _.
    by apply update_row_Permutation.
  - destruct Hc'. by rewrite <-Hp.
  - destruct Hc. by rewrite Hp.
  - done.
Qed.

(** X5. The statement is idempotent: when the rows have pairwise distinct
    ids, running it again at the same time on the table it left gives the
    same error and leaves that table as it is. *)
Theorem updateContactNameSQL_idempotent (now : Time)
    (choose choose' : postgres.contact Time Other → nat)
    (rows : list handlers.nameUpdate)
    (table : list (postgres.contact Time Other)) :
  NoDup (handlers.ContactID <$> rows) →
  postgres.exec_updateContactNameSQL now choose' rows
    (postgres.exec_updateContactNameSQL now choose rows table).2 =
  postgres.exec_updateContactNameSQL now choose rows table.
Proof.
  intros Hnd. unfold postgres.exec_updateContactNameSQL.
  destruct (decide (Forall _ rows)) as [Hc|Hc]; simpl.
  - f_equal. rewrite <-list_fmap_compose. apply list_fmap_ext.
    intros i c _. simpl. by apply update_row_idempotent.
  - done.
Qed.

End StatementFacts.

(** ** The hook and the handler *)

Lemma handle_events_queue {Tx Pool} (w : models.World Tx Pool) session sess
    (evs : list events.ContactNameChangedEvent) :
  session ≠ nil →
  models.w_sessions w !! session = Some sess →
  ∃ w',
    handle_events session (as_value <$> evs) w = (Returns None, w') ∧
    models.w_tx w' = models.w_tx w ∧
    models.w_rp w' = models.w_rp w ∧
    length (models.w_log w') = length (models.w_log w) + length evs ∧
    models.w_sessions w' !! session =
      Some (committer.after_calls
              ((λ d, (handlers.commitContactNameChanges, d)) <$>
                 (as_value <$> evs)) sess) ∧
    ∀ s, s ≠ session →
         models.w_sessions w' !! s = models.w_sessions w !! s.
Proof.
  intros Hs. revert w sess.
  induction evs as [|ev evs IH]; intros w sess Hh; simpl.
  - exists w. repeat split; [lia | done].
  - rewrite applyContactNameChanged_unfold. simpl.
    rewrite (proj2 (deref_Returns _ _ sess)) by done.
    match goal with |- context [handle_events _ _ ?w1] => set (w1' := w1) end.
    destruct (IH w1' (models.AddPreCommitEvent handlers.commitContactNameChanges
                        (as_value ev) sess))
      as (w' & Hrun & Htx & Hrp & Hlog & Hsess & Hothers).
    { unfold w1'. simpl. by rewrite lookup_insert_eq. }
    exists w'. split; [done|]. split; [done|]. split; [done|]. split.
    { rewrite Hlog. unfold w1'. simpl. rewrite length_app. simpl. lia. }
    split; [done|].
    intros s Hne. rewrite (Hothers s Hne). unfold w1'. simpl.
    by rewrite lookup_insert_ne.
Qed.

Section ApplyFacts.
Context {Tx Pool : Type}.
Variable BulkSQL : handlers.BulkSQLCall → Tx → outcome error * Tx.

(** X1. The order in which the map is visited does not change what
    [Apply] does, up to the order of the rows: for two orders of the same
    entries, either both runs panic, having done nothing, or both make
    their one [BulkSQL] call, with the same rows in some order. *)
Theorem Apply_order_independent (w : models.World Tx Pool)
    (es1 es2 : list (ptr * list value)) :
  es1 ≡ₚ es2 →
  (∃ p1 p2,
     handlers.Apply_in_order BulkSQL es1 w = (Panics p1, w) ∧
     handlers.Apply_in_order BulkSQL es2 w = (Panics p2, w)) ∨
  (∃ u1 u2,
     u1 ≡ₚ u2 ∧
     handlers.Apply_in_order BulkSQL es1 w =
       handlers.call_BulkSQL BulkSQL "updating contact name"
         handlers.updateContactNameSQL u1 w ∧
     handlers.Apply_in_order BulkSQL es2 w =
       handlers.call_BulkSQL BulkSQL "updating contact name"
         handlers.updateContactNameSQL u2 w).
Proof.
  intros Hp.
  destruct (handlers.Apply_range (models.w_sessions w) es1 []) as [u1|p1] eqn:H1.
  - right.
    assert (Forall (λ se, well_formed (models.w_sessions w) se.1 se.2) es2)
      as Hwf.
    { rewrite <-Hp. apply (Apply_range_total _ es1 []). eauto. }
    apply (Apply_range_total _ es2 []) in Hwf as [u2 H2].
    exists u1, u2.
    split; [|split; by apply Apply_in_order_Returns].
    apply Apply_range_Returns in H1 as (r1 & -> & Hr1).
    apply Apply_range_Returns in H2 as (r2 & -> & Hr2).
    apply rows_omap in Hr1, Hr2. simpl. by rewrite Hr1, Hr2, Hp.
  - left.
    assert (panicked (handlers.Apply_range (models.w_sessions w) es1 []))
      as Hpanic1 by by rewrite H1.
    assert (panicked (handlers.Apply_range (models.w_sessions w) es2 []))
      as Hpanic2.
    { apply Apply_range_Panics. rewrite <-Hp.
      by apply (Apply_range_Panics _ es1 []). }
    destruct (Apply_in_order_Panics BulkSQL w es1 Hpanic1) as (q1 & _ & Ha1).
    destruct (Apply_in_order_Panics BulkSQL w es2 Hpanic2) as (q2 & _ & Ha2).
    eauto.
Qed.

(** X3. The handler and the hook compose to last-write-wins.  After the
    handler has run on a session for a sequence of name-change events,
    the transaction and the cache pool are untouched, one log record per
    event has been written, and the session holds under the hook what it
    held before followed by the events in order; [Apply] on that queue
    then makes its [BulkSQL] call with one row: the session's contact id
    and the name of the last event handled. *)
Theorem handle_then_Apply (w : models.World Tx Pool) (session : ptr)
    (sess : models.Session) (evs : list events.ContactNameChangedEvent)
    (ev : events.ContactNameChangedEvent) :
  session ≠ nil →
  models.w_sessions w !! session = Some sess →
  ∃ w' queue,
    handle_events session (as_value <$> evs ++ [ev]) w = (Returns None, w') ∧
    models.w_tx w' = models.w_tx w ∧
    models.w_rp w' = models.w_rp w ∧
    length (models.w_log w') = length (models.w_log w) + length (evs ++ [ev]) ∧
    queue_of (models.w_sessions w') session handlers.commitContactNameChanges =
      Some queue ∧
    queue =
      default [] (models.preCommits sess !! handlers.commitContactNameChanges)
      ++ (as_value <$> evs ++ [ev]) ∧
    handlers.Apply_in_order BulkSQL [(session, queue)] w' =
      handlers.call_BulkSQL BulkSQL "updating contact name"
        handlers.updateContactNameSQL
        [{| handlers.ContactID := int64 (models.ContactID sess);
            handlers.Name := events.Name ev |}] w'.
Proof.
  intros Hs Hh.
  destruct (handle_events_queue w session sess (evs ++ [ev]) Hs Hh)
    as (w' & Hrun & Htx & Hrp & Hlog & Hsess & _).
  exists w'. eexists. split; [done|]. split; [done|]. split; [done|].
  split; [done|].
  assert (queue_of (models.w_sessions w') session
            handlers.commitContactNameChanges =
          Some (default [] (models.preCommits sess !!
                              handlers.commitContactNameChanges)
                ++ (as_value <$> evs ++ [ev]))) as Hq.
  { unfold queue_of. rewrite Hsess. cbn [mbind option_bind].
    unfold models.PreCommitEvents.
    rewrite after_calls_lookup, queued_under_all.
    rewrite fmap_app. simpl.
    by destruct (as_value <$> evs). }
  split; [exact Hq|]. split; [done|].
  apply Apply_in_order_Returns. cbn [handlers.Apply_range].
  rewrite lastNameUpdate_unfold, fmap_app.
  change (as_value <$> [ev]) with [as_value ev].
  rewrite app_assoc, last_snoc. cbv beta iota delta [as_value].
  rewrite (proj2 (deref_Returns _ _ _) (conj Hs Hsess)).
  by rewrite after_calls_ContactID.
Qed.

(** X6. What reaches the table does not depend on the order in which the
    map is visited.  For a map whose sessions all have a valid pointer
    and a sequence ending in a name-change event, and are of pairwise
    distinct contacts, any two orders of visiting the map give rows on
    which the statement returns the same error and leaves the same
    table. *)
Theorem Apply_table_order_independent {Time Other : Type}
    (h : gmap ptr models.Session) (sessions : gmap ptr (list value))
    (es1 es2 : list (ptr * list value)) (now : Time)
    (choose1 choose2 : postgres.contact Time Other → nat)
    (table : list (postgres.contact Time Other)) :
  es1 ≡ₚ map_to_list sessions →
  es2 ≡ₚ map_to_list sessions →
  map_Forall (well_formed h) sessions →
  (∀ s1 s2 sess1 sess2,
     is_Some (sessions !! s1) → is_Some (sessions !! s2) →
     h !! s1 = Some sess1 → h !! s2 = Some sess2 →
     int64 (models.ContactID sess1) = int64 (models.ContactID sess2) →
     s1 = s2) →
  ∃ u1 u2,
    handlers.Apply_range h es1 [] = Returns u1 ∧
    handlers.Apply_range h es2 [] = Returns u2 ∧
    postgres.exec_updateContactNameSQL now choose1 u1 table =
    postgres.exec_updateContactNameSQL now choose2 u2 table.
Proof.
  intros Hp1 Hp2 Hwf Hdistinct.
  destruct (Apply_rows _ _ _ Hp1 Hwf) as (u1 & Hrun1 & Hrows1).
  destruct (Apply_rows _ _ _ Hp2 Hwf) as (u2 & Hrun2 & Hrows2).
  exists u1, u2. split; [done|]. split; [done|].
  assert (u1 ≡ₚ u2) as Hp.
  { apply rows_omap in Hrows1 as ->. apply rows_omap in Hrows2 as ->.
    by rewrite Hp1, Hp2. }
  assert (NoDup (handlers.ContactID <$> u1)) as Hnd.
  { assert (NoDup es1.*1) as Hkeys.
    { rewrite Hp1. apply NoDup_fst_map_to_list. }
    clear Hrun1 Hp. revert Hkeys.
    assert (∀ se, se ∈ es1 → is_Some (sessions !! se.1)) as Hin.
    { intros [s e] Hse. rewrite Hp1 in Hse.
      apply elem_of_map_to_list in Hse. simpl. by rewrite Hse. }
    clear Hp1. induction Hrows1 as [|[s e] u es1 u1 Hu Hrest IH]; simpl.
    { constructor. }
    rewrite !NoDup_cons. intros [Hs Hkeys]. split.
    - intros (u' & Hid & Hu')%list_elem_of_fmap_1.
      apply list_elem_of_lookup_1 in Hu' as [j Hj].
      destruct (Forall2_lookup_r _ _ _ _ _ Hrest Hj) as ([s' e'] & Hj' & Hlast).
      apply lastNameUpdate_Returns in Hu as (sess & ev & _ & Hh & _ & ->).
      apply lastNameUpdate_Returns in Hlast as (sess' & ev' & _ & Hh' & _ & ->).
      simpl in *. apply list_elem_of_lookup_2 in Hj'.
      assert (s = s') as <-.
      { eapply Hdistinct; [| |done..].
        - apply (Hin (s, e)). by left.
        - apply (Hin (s', e')). by right. }
      apply Hs. by apply (list_elem_of_fmap_2 fst) in Hj'.
    - apply IH; [|done]. intros se Hse. apply Hin. by right. }
  unfold postgres.exec_updateContactNameSQL.
  destruct (decide (Forall _ u1)) as [Hc|Hc];
    destruct (decide (Forall _ u2)) as [Hc'|Hc'].
  - f_equal. apply list_fmap_ext. intros i c _.
    by apply update_row_Permutation.
  - destruct Hc'. by rewrite <-Hp.
  - destruct Hc. by rewrite Hp.
  - done.
Qed.

End ApplyFacts.

(** X2. The handler never returns an error: it returns nil or it panics.
    When it returns, it has written exactly one log record, the
    transaction and the cache pool are as they were, and the world holds
    the same sessions as before, none added and none removed; when it
    panics, the world is exactly as it was. *)
Theorem applyContactNameChanged_nil_or_panic {Tx Pool}
    (w : models.World Tx Pool) (session : ptr) (e : value) :
  (∃ w',
     handlers.applyContactNameChanged session e w = (Returns None, w') ∧
     length (models.w_log w') = S (length (models.w_log w)) ∧
     models.w_tx w' = models.w_tx w ∧
     models.w_rp w' = models.w_rp w ∧
     dom (models.w_sessions w') = dom (models.w_sessions w)) ∨
  (∃ p, handlers.applyContactNameChanged session e w = (Panics p, w)).
Proof.
  rewrite applyContactNameChanged_unfold.
  destruct (assert_ContactNameChangedEvent e) as [event|p]; [|right; eauto].
  destruct (deref (models.w_sessions w) session) as [sess|p] eqn:Hd;
    [|right; eauto].
  destruct (select_Name event) as [name|p]; [|right; eauto].
  left. eexists. split; [done|]. simpl.
  split; [rewrite length_app; simpl; lia|]. split; [done|]. split; [done|].
  apply deref_Returns in Hd as [_ Hh].
  apply dom_insert_lookup_L. by rewrite Hh.
Qed.

(** * The HTTP handlers of [web/flow] *)

Section FlowHandlers.
Context {Body Flow Inspection OrgAssets SessionAssets DB : Type}.
Variable MaxRequestBytes : Z.
Variable decode_migrateRequest : Body → Z → string + flow.migrateRequest.
Variable decode_inspectRequest : Body → Z → string + flow.inspectRequest.
Variable decode_cloneRequest : Body → Z → string + flow.cloneRequest.
Variable MigrateDefinition : string → option string → string + string.
Variable ReadFlow ReadFlow' : string → string + Flow.
Variable CloneDefinition : string → gmap string string → string + string.
Variable Inspect : Flow → Inspection.
Variable CheckDependencies CheckDependencies' : Flow → SessionAssets → error.
Variable NilOrgID : Z.
Variable NewOrgAssets NewOrgAssets' : DB → Z → string + OrgAssets.
Variable NewSessionAssets NewSessionAssets' : OrgAssets → string + SessionAssets.

Local Abbreviation handleMigrate :=
  (flow.handleMigrate (Inspection := Inspection) MaxRequestBytes
     decode_migrateRequest MigrateDefinition ReadFlow).
Local Abbreviation checkDependencies :=
  (flow.checkDependencies (Inspection := Inspection) CheckDependencies
     NewOrgAssets NewSessionAssets).
Local Abbreviation handleInspect :=
  (flow.handleInspect MaxRequestBytes decode_inspectRequest ReadFlow Inspect
     CheckDependencies NilOrgID NewOrgAssets NewSessionAssets).
Local Abbreviation handleClone :=
  (flow.handleClone (Inspection := Inspection) MaxRequestBytes
     decode_cloneRequest ReadFlow CloneDefinition CheckDependencies NilOrgID
     NewOrgAssets NewSessionAssets).

Local Abbreviation dependencies_pass :=
  (flow.dependencies_pass CheckDependencies NewOrgAssets NewSessionAssets).
Local Abbreviation assets_fail :=
  (flow.assets_fail NewOrgAssets NewSessionAssets).

Lemma checkDependencies_cases db orgID f :
  (dependencies_pass db orgID f ∧
   checkDependencies db orgID f = (flow.no_response, 0%Z, None)) ∨
  (∃ err, assets_fail db orgID err ∧
          checkDependencies db orgID f = (flow.no_response, 0%Z, Some err)) ∨
  (∃ org sa err, NewOrgAssets db orgID = inr org ∧
                 NewSessionAssets org = inr sa ∧
                 CheckDependencies f sa = Some err ∧
                 checkDependencies db orgID f =
                   (flow.failure (flow.Wrapf err "flow failed validation"),
                    flow.StatusUnprocessableEntity, None)).
Proof.
  unfold flow.checkDependencies, flow.dependencies_pass, flow.assets_fail.
  destruct (NewOrgAssets db orgID) as [e|org] eqn:Ho.
  { right. left. exists e. eauto. }
  destruct (NewSessionAssets org) as [e|sa] eqn:Hs.
  { right. left. exists e. split; [right; eauto | done]. }
  destruct (CheckDependencies f sa) as [e|] eqn:Hc.
  - right. right. exists org, sa, e. eauto.
  - left. split; [exists org, sa; eauto | done].
Qed.

(** X7. [handleMigrate] never returns a Go error.  It answers 200 exactly
    when the request decodes, the migration succeeds and the migrated
    definition reads back as a flow, and the body is then that migrated
    definition; it answers 400 exactly when the request does not decode;
    every other answer is 422 with an error value. *)
Theorem handleMigrate_validated (body : Body) :
  ∃ res status,
    handleMigrate body = (res, status, None) ∧
    (status = flow.StatusOK ↔
     ∃ req migrated f,
       decode_migrateRequest body MaxRequestBytes = inr req ∧
       MigrateDefinition (flow.migrate_Flow req) (flow.migrate_ToVersion req) =
         inr migrated ∧
       ReadFlow migrated = inr f ∧
       res = flow.definition migrated) ∧
    (status = flow.StatusBadRequest ↔
     ∃ err, decode_migrateRequest body MaxRequestBytes = inl err) ∧
    (status ≠ flow.StatusOK →
     (∃ err, res = flow.failure err) ∧
     (status = flow.StatusBadRequest ∨
      status = flow.StatusUnprocessableEntity)).
Proof.
  unfold flow.handleMigrate.
  destruct (decode_migrateRequest body MaxRequestBytes) as [e|req] eqn:Hd.
  { eexists _, _. split; [done|]. split; [|split].
    - split; [done|]. by intros (? & ? & ? & ? & _).
    - split; eauto.
    - intros _. split; [eauto | by left]. }
  destruct (MigrateDefinition _ _) as [e|migrated] eqn:Hm.
  { eexists _, _. split; [done|]. split; [|split].
    - split; [done|]. intros (? & ? & ? & [= <-] & ? & _). congruence.
    - split; [done|]. by intros [? ?].
    - intros _. split; [eauto | by right]. }
  destruct (ReadFlow migrated) as [e|f] eqn:Hr.
  { eexists _, _. split; [done|]. split; [|split].
    - split; [done|]. intros (? & ? & ? & [= <-] & ? & ? & _). congruence.
    - split; [done|]. by intros [? ?].
    - intros _. split; [eauto | by right]. }
  eexists _, _. split; [done|]. split; [|split].
  - split; [|done]. intros _. exists req, migrated, f. eauto.
  - split; [done|]. by intros [? ?].
  - done.
Qed.

(** X8. [handleInspect] returns a Go error exactly when the request
    decodes, the flow reads, an org is named and the assets of that org
    fail to load; the error is the loading error, passed on unwrapped,
    and it comes with a nil body and status 0. *)
Theorem handleInspect_error (db : DB) (body : Body) (err : string) :
  ((handleInspect db body).2 = Some err ↔
   ∃ req f,
     decode_inspectRequest body MaxRequestBytes = inr req ∧
     ReadFlow (flow.inspect_Flow req) = inr f ∧
     flow.inspect_ValidateWithOrgID req ≠ NilOrgID ∧
     assets_fail db (flow.inspect_ValidateWithOrgID req) err) ∧
  ((handleInspect db body).2 = Some err →
   handleInspect db body = (flow.no_response, 0%Z, Some err)).
Proof.
  unfold flow.handleInspect.
  destruct (decode_inspectRequest body MaxRequestBytes) as [e|req] eqn:Hd.
  { split; [|done]. split; [done|]. by intros (? & ? & ? & _). }
  destruct (ReadFlow (flow.inspect_Flow req)) as [e|f] eqn:Hr.
  { split; [|done]. split; [done|]. intros (? & ? & [= <-] & ? & _).
    congruence. }
  case_decide as Horg.
  2:{ split; [|done]. split; [done|]. intros (? & ? & [= <-] & _ & ? & _).
      done. }
  destruct (checkDependencies_cases db (flow.inspect_ValidateWithOrgID req) f)
    as [[Hpass Hrun]|[(e & Hfail & Hrun)|(org & sa & e & Ho & Hs & Hc & Hrun)]];
    rewrite Hrun; simpl.
  - split; [|done]. split; [done|].
    intros (? & f' & [= <-] & Hf' & _ & Hfail).
    assert (f' = f) as -> by congruence.
    destruct Hpass as (org & sa & Ho & Hs & _).
    destruct Hfail as [Hfail|(org' & Ho' & Hs')]; congruence.
  - split; [|by intros [= ->]]. split.
    + intros [= ->]. exists req, f. eauto.
    + intros (? & f' & [= <-] & Hf' & _ & Hfail').
      f_equal.
      destruct Hfail as [Hfail|(org & Ho & Hs)];
        destruct Hfail' as [Hfail'|(org' & Ho' & Hs')]; congruence.
  - split; [|done]. split; [done|].
    intros (? & f' & [= <-] & Hf' & _ & Hfail).
    destruct Hfail as [Hfail|(org' & Ho' & Hs')]; congruence.
Qed.

(** X9. A 200 from [handleInspect] carries the inspection of the flow
    read from the request, and when the request names an org the flow has
    passed the dependency check against the assets of that org. *)
Theorem handleInspect_ok (db : DB) (body : Body) res err :
  handleInspect db body = (res, flow.StatusOK, err) →
  err = None ∧
  ∃ req f,
    decode_inspectRequest body MaxRequestBytes = inr req ∧
    ReadFlow (flow.inspect_Flow req) = inr f ∧
    res = flow.inspection (Inspect f) ∧
    (flow.inspect_ValidateWithOrgID req ≠ NilOrgID →
     dependencies_pass db (flow.inspect_ValidateWithOrgID req) f).
Proof.
  unfold flow.handleInspect.
  destruct (decode_inspectRequest body MaxRequestBytes) as [e|req] eqn:Hd;
    [done|].
  destruct (ReadFlow (flow.inspect_Flow req)) as [e|f] eqn:Hr; [done|].
  case_decide as Horg.
  2:{ intros [= <- <-]. split; [done|]. exists req, f. by repeat split. }
  destruct (checkDependencies_cases db (flow.inspect_ValidateWithOrgID req) f)
    as [[Hpass ->]|[(e & Hfail & ->)|(org & sa & e & Ho & Hs & Hc & ->)]];
    simpl; [|done..].
  intros [= <- <-]. split; [done|]. exists req, f. by repeat split.
Qed.

(** X10. Without an org to validate against, [handleClone] returns the
    clone as [CloneDefinition] produced it, with 200, and never reads it
    back: its answer is the same whatever [ReadFlow], the dependency check
    and the assets would say. *)
Theorem handleClone_unvalidated (db db' : DB) (body : Body) :
  (∀ req, decode_cloneRequest body MaxRequestBytes = inr req →
          flow.clone_ValidateWithOrgID req = NilOrgID) →
  handleClone db body =
    flow.handleClone (Inspection := Inspection) MaxRequestBytes
      decode_cloneRequest ReadFlow' CloneDefinition CheckDependencies'
      NilOrgID NewOrgAssets' NewSessionAssets' db' body ∧
  ∀ req cloneJSON,
    decode_cloneRequest body MaxRequestBytes = inr req →
    CloneDefinition (flow.clone_Flow req) (flow.clone_DependencyMapping req) =
      inr cloneJSON →
    handleClone db body = (flow.definition cloneJSON, flow.StatusOK, None).
Proof.
  intros Hnil. unfold flow.handleClone.
  destruct (decode_cloneRequest body MaxRequestBytes) as [e|req] eqn:Hd.
  { split; [done|]. by intros ?? [=]. }
  specialize (Hnil req eq_refl).
  destruct (CloneDefinition _ _) as [e|cloneJSON] eqn:Hc.
  { split; [done|]. intros ?? [= <-]. congruence. }
  rewrite !decide_False by (by intros ?).
  split; [done|]. intros ?? [= <-]. congruence.
Qed.

(** X11. With an org to validate against, a 200 from [handleClone]
    carries the clone as [CloneDefinition] produced it, and that clone has
    been read back as a flow and has passed the dependency check against
    the assets of the org. *)
Theorem handleClone_validated (db : DB) (body : Body) req res err :
  decode_cloneRequest body MaxRequestBytes = inr req →
  flow.clone_ValidateWithOrgID req ≠ NilOrgID →
  handleClone db body = (res, flow.StatusOK, err) →
  err = None ∧
  ∃ cloneJSON f,
    CloneDefinition (flow.clone_Flow req) (flow.clone_DependencyMapping req) =
      inr cloneJSON ∧
    res = flow.definition cloneJSON ∧
    ReadFlow cloneJSON = inr f ∧
    dependencies_pass db (flow.clone_ValidateWithOrgID req) f.
Proof.
  intros Hd Horg. unfold flow.handleClone. rewrite Hd.
  destruct (CloneDefinition _ _) as [e|cloneJSON] eqn:Hc; [done|].
  rewrite decide_True by done.
  destruct (ReadFlow cloneJSON) as [e|f] eqn:Hr; [done|].
  destruct (checkDependencies_cases db (flow.clone_ValidateWithOrgID req) f)
    as [[Hpass ->]|[(e & Hfail & ->)|(org & sa & e & Ho & Hs & Hc' & ->)]];
    simpl; [|done..].
  intros [= <- <-]. split; [done|]. exists cloneJSON, f. by repeat split.
Qed.

(** X12. [handleClone] returns a Go error exactly when the request
    decodes, the clone is produced and reads back, an org is named and the
    assets of that org fail to load; the error is the loading error,
    passed on unwrapped, and it comes with a nil body and status 0. *)
Theorem handleClone_error (db : DB) (body : Body) (err : string) :
  ((handleClone db body).2 = Some err ↔
   ∃ req cloneJSON f,
     decode_cloneRequest body MaxRequestBytes = inr req ∧
     CloneDefinition (flow.clone_Flow req) (flow.clone_DependencyMapping req) =
       inr cloneJSON ∧
     ReadFlow cloneJSON = inr f ∧
     flow.clone_ValidateWithOrgID req ≠ NilOrgID ∧
     assets_fail db (flow.clone_ValidateWithOrgID req) err) ∧
  ((handleClone db body).2 = Some err →
   handleClone db body = (flow.no_response, 0%Z, Some err)).
Proof.
  unfold flow.handleClone.
  destruct (decode_cloneRequest body MaxRequestBytes) as [e|req] eqn:Hd.
  { split; [|done]. split; [done|]. by intros (? & ? & ? & ? & _). }
  destruct (CloneDefinition _ _) as [e|cloneJSON] eqn:Hc.
  { split; [|done]. split; [done|]. intros (? & ? & ? & [= <-] & ? & _).
    congruence. }
  case_decide as Horg.
  2:{ split; [|done]. split; [done|].
      intros (? & ? & ? & [= <-] & _ & _ & ? & _). done. }
  destruct (ReadFlow cloneJSON) as [e|f] eqn:Hr.
  { split; [|done]. split; [done|].
    intros (? & ? & ? & [= <-] & ? & ? & _). congruence. }
  destruct (checkDependencies_cases db (flow.clone_ValidateWithOrgID req) f)
    as [[Hpass Hrun]|[(e & Hfail & Hrun)|(org & sa & e & Ho & Hs & Hc' & Hrun)]];
    rewrite Hrun; simpl.
  - split; [|done]. split; [done|].
    intros (? & c' & f' & [= <-] & Hc'' & Hf' & _ & Hfail).
    assert (c' = cloneJSON) as -> by congruence.
    assert (f' = f) as -> by congruence.
    destruct Hpass as (org & sa & Ho & Hs & _).
    destruct Hfail as [Hfail|(org' & Ho' & Hs')]; congruence.
  - split; [|by intros [= ->]]. split.
    + intros [= ->]. exists req, cloneJSON, f. eauto 10.
    + intros (? & c' & f' & [= <-] & Hc'' & Hf' & _ & Hfail').
      f_equal.
      destruct Hfail as [Hfail|(org & Ho & Hs)];
        destruct Hfail' as [Hfail'|(org' & Ho' & Hs')]; congruence.
  - split; [|done]. split; [done|].
    intros (? & c' & f' & [= <-] & Hc'' & Hf' & _ & Hfail).
    destruct Hfail as [Hfail|(org' & Ho' & Hs')]; congruence.
Qed.

End FlowHandlers.

(** * The further properties at concrete inputs *)

(** X1 on the two sessions, visited in one order and in the reverse
    order: both runs make the call. *)
Lemma Apply_order_independent_witness :
  ∃ u1 u2,
    u1 ≡ₚ u2 ∧
    handlers.Apply_in_order handlers.recording
      (map_to_list example.sessions) example.world =
    handlers.call_BulkSQL handlers.recording "updating contact name"
      handlers.updateContactNameSQL u1 example.world ∧
    handlers.Apply_in_order handlers.recording
      (reverse (map_to_list example.sessions)) example.world =
    handlers.call_BulkSQL handlers.recording "updating contact name"
      handlers.updateContactNameSQL u2 example.world.
Proof.
  destruct (Apply_order_independent handlers.recording example.world
              (map_to_list example.sessions)
              (reverse (map_to_list example.sessions)))
    as [(p1 & p2 & H1 & _)|Hcall].
  - symmetry. apply reverse_Permutation.
  - vm_compute in H1. discriminate.
  - exact Hcall.
Defined.

(** X3 on session 1 and the events named A and B. *)
Lemma handle_then_Apply_witness :
  ∃ w' queue,
    handle_events 1%N [example.A; example.B] example.world =
      (Returns None, w') ∧
    queue_of (models.w_sessions w') 1%N handlers.commitContactNameChanges =
      Some queue ∧
    handlers.Apply_in_order handlers.recording [(1%N, queue)] w' =
      handlers.call_BulkSQL handlers.recording "updating contact name"
        handlers.updateContactNameSQL
        [{| handlers.ContactID := 7; handlers.Name := "B" |}] w'.
Proof.
  destruct (handle_then_Apply handlers.recording example.world 1%N
              (models.NewSession 10 7 "c7") [{| events.Name := "A" |}]
              {| events.Name := "B" |})
    as (w' & queue & Hrun & _ & _ & _ & Hq & _ & Happly).
  - discriminate.
  - vm_compute. reflexivity.
  - exists w', queue. split; [exact Hrun|]. split; [exact Hq | exact Happly].
Defined.

(** X4 on the rows of the two sessions, in both orders and with two
    different choices. *)
Lemma updateContactNameSQL_order_independent_witness :
  postgres.exec_updateContactNameSQL 5 (λ _, 0)
    [{| handlers.ContactID := 8; handlers.Name := "A" |};
     {| handlers.ContactID := 7; handlers.Name := "B" |}] example.table =
  postgres.exec_updateContactNameSQL 5 (λ _, 1)
    [{| handlers.ContactID := 7; handlers.Name := "B" |};
     {| handlers.ContactID := 8; handlers.Name := "A" |}] example.table.
Proof.
  apply updateContactNameSQL_order_independent.
  - apply Permutation_swap.
  - apply (bool_decide_unpack _). vm_compute. exact I.
Defined.

(** X5 on the same rows. *)
Lemma updateContactNameSQL_idempotent_witness :
  postgres.exec_updateContactNameSQL 5 (λ _, 1)
    [{| handlers.ContactID := 8; handlers.Name := "A" |};
     {| handlers.ContactID := 7; handlers.Name := "B" |}]
    (postgres.exec_updateContactNameSQL 5 (λ _, 0)
       [{| handlers.ContactID := 8; handlers.Name := "A" |};
        {| handlers.ContactID := 7; handlers.Name := "B" |}]
       example.table).2 =
  postgres.exec_updateContactNameSQL 5 (λ _, 0)
    [{| handlers.ContactID := 8; handlers.Name := "A" |};
     {| handlers.ContactID := 7; handlers.Name := "B" |}] example.table.
Proof.
  apply updateContactNameSQL_idempotent.
  apply (bool_decide_unpack _). vm_compute. exact I.
Defined.

(** Without distinct ids the statement is not idempotent: with two rows
    for contact 7 the database may use one of them the first time and the
    other the second time. *)
Example statement_twice_with_duplicate_ids :
  let rows := [{| handlers.ContactID := 7; handlers.Name := "A" |};
               {| handlers.ContactID := 7; handlers.Name := "B" |}] in
  postgres.exec_updateContactNameSQL 5 (λ _, 1) rows
    (postgres.exec_updateContactNameSQL 5 (λ _, 0) rows example.table).2 ≠
  postgres.exec_updateContactNameSQL 5 (λ _, 0) rows example.table.
Proof. vm_compute. discriminate. Qed.

(** X6 on the two sessions, which are of the contacts 7 and 8. *)
Lemma Apply_table_order_independent_witness :
  ∃ u1 u2,
    handlers.Apply_range example.store (map_to_list example.sessions) [] =
      Returns u1 ∧
    handlers.Apply_range example.store
      (reverse (map_to_list example.sessions)) [] = Returns u2 ∧
    postgres.exec_updateContactNameSQL 5 (λ _, 0) u1 example.table =
    postgres.exec_updateContactNameSQL 5 (λ _, 1) u2 example.table.
Proof.
  apply (Apply_table_order_independent example.store example.sessions).
  - reflexivity.
  - apply reverse_Permutation.
  - apply (bool_decide_unpack _). vm_compute. exact I.
  - intros s1 s2 sess1 sess2 [e1 H1] [e2 H2] Hh1 Hh2 Hid.
    unfold example.sessions in H1, H2.
    apply lookup_insert_Some in H1 as [[<- _]|[_ H1]];
      [|apply lookup_insert_Some in H1 as [[<- _]|[_ H1]];
        [|by rewrite lookup_empty in H1]];
    (apply lookup_insert_Some in H2 as [[<- _]|[_ H2]];
      [|apply lookup_insert_Some in H2 as [[<- _]|[_ H2]];
        [|by rewrite lookup_empty in H2]]);
    try reflexivity;
    vm_compute in Hh1, Hh2; injection Hh1 as <-; injection Hh2 as <-;
    vm_compute in Hid; discriminate.
Defined.

(** ** The handlers of [web/flow] *)

(** A flow that migrates is returned only after it has been read back. *)
Example handleMigrate_unreadable :
  flow.handleMigrate (Inspection := nat) 100
    (λ body limit, inr {| flow.migrate_Flow := body;
                          flow.migrate_ToVersion := None |})
    (λ json version, inr "") example_flow.ReadFlow "legacy" =
  (flow.failure "unable to read migrated flow: empty definition", 422%Z, None).
Proof. vm_compute. reflexivity. Qed.

(** A failure to load the org's assets is the one Go error of
    [handleInspect]. *)
Example handleInspect_no_org :
  flow.handleInspect 100 (example_flow.decode_inspectRequest 2)
    example_flow.ReadFlow example_flow.Inspect example_flow.CheckDependencies
    0 example_flow.NewOrgAssets example_flow.NewSessionAssets () "flow" =
  (flow.no_response, 0%Z, Some "no such org").
Proof. vm_compute. reflexivity. Qed.

(** X9 on a request that names org 1. *)
Lemma handleInspect_ok_witness :
  flow.handleInspect 100 (example_flow.decode_inspectRequest 1)
    example_flow.ReadFlow example_flow.Inspect example_flow.CheckDependencies
    0 example_flow.NewOrgAssets example_flow.NewSessionAssets () "flow" =
    (flow.inspection 4, flow.StatusOK, None) ∧
  ∃ req f,
    example_flow.decode_inspectRequest 1 "flow" 100 = inr req ∧
    example_flow.ReadFlow (flow.inspect_Flow req) = inr f ∧
    flow.inspection 4 = flow.inspection (example_flow.Inspect f) ∧
    (flow.inspect_ValidateWithOrgID req ≠ 0%Z →
     flow.dependencies_pass example_flow.CheckDependencies
       example_flow.NewOrgAssets example_flow.NewSessionAssets ()
       (flow.inspect_ValidateWithOrgID req) f).
Proof.
  assert (flow.handleInspect 100 (example_flow.decode_inspectRequest 1)
    example_flow.ReadFlow example_flow.Inspect example_flow.CheckDependencies
    0 example_flow.NewOrgAssets example_flow.NewSessionAssets () "flow" =
    (flow.inspection 4, flow.StatusOK, None)) as Hrun
    by (vm_compute; reflexivity).
  split; [exact Hrun|].
  exact (proj2 (handleInspect_ok _ _ _ _ _ _ _ _ _ _ _ _ Hrun)).
Defined.

(** X10 on a request that names no org: the clone is returned although
    the second reader would refuse it. *)
Lemma handleClone_unvalidated_witness :
  flow.handleClone (Inspection := nat) 100
    (example_flow.decode_cloneRequest 0) example_flow.ReadFlow
    example_flow.CloneDefinition example_flow.CheckDependencies 0
    example_flow.NewOrgAssets example_flow.NewSessionAssets () "flow" =
  flow.handleClone (Inspection := nat) 100
    (example_flow.decode_cloneRequest 0) example_flow.ReadFlow_never
    example_flow.CloneDefinition example_flow.CheckDependencies 0
    example_flow.NewOrgAssets example_flow.NewSessionAssets () "flow".
Proof.
  refine (proj1 (handleClone_unvalidated 100
            (example_flow.decode_cloneRequest 0) example_flow.ReadFlow
            example_flow.ReadFlow_never example_flow.CloneDefinition
            example_flow.CheckDependencies example_flow.CheckDependencies 0
            example_flow.NewOrgAssets example_flow.NewOrgAssets
            example_flow.NewSessionAssets example_flow.NewSessionAssets
            () () "flow" _)).
  intros req Hreq. vm_compute in Hreq. injection Hreq as <-. reflexivity.
Defined.

(** X11 on a request that names org 1. *)
Lemma handleClone_validated_witness :
  ∃ cloneJSON f,
    example_flow.CloneDefinition "flow" ∅ = inr cloneJSON ∧
    example_flow.ReadFlow cloneJSON = inr f ∧
    flow.dependencies_pass example_flow.CheckDependencies
      example_flow.NewOrgAssets example_flow.NewSessionAssets () 1%Z f.
Proof.
  destruct (handleClone_validated (Inspection := nat) 100
              (example_flow.decode_cloneRequest 1)
              example_flow.ReadFlow example_flow.CloneDefinition
              example_flow.CheckDependencies 0 example_flow.NewOrgAssets
              example_flow.NewSessionAssets () "flow"
              {| flow.clone_DependencyMapping := ∅;
                 flow.clone_Flow := "flow";
                 flow.clone_ValidateWithOrgID := 1 |}
              (flow.definition "clone of flow") None)
    as (_ & cloneJSON & f & Hclone & _ & Hread & Hdeps).
  - vm_compute. reflexivity.
  - discriminate.
  - vm_compute. reflexivity.
  - exists cloneJSON, f. split; [exact Hclone|]. split; [exact Hread | exact Hdeps].
Defined.
